(** * The South Park view counter: counter store, asset cache, layout

    A shallow embedding of the production server (src/server.js, the
    variant with the Redis/file store, the image cache and the custom
    character order), of the script of its builder page and of the SQLite
    variant of the same file, and the properties of them that the
    specification states or that the code shows.

    Conventions of the embedding.
    - A JavaScript string is a [string]: one character per UTF-16 code
      unit, with code points below 256, so that [length] is the number of
      code units and of code points alike.
    - A JavaScript number is a [jsnum]: the binary64 value of an integer
      [Int z], or any other binary64 value [Double f], held as a primitive
      float.  Between -2^53 and 2^53 every integer is a binary64 value and
      [Int z] is that value; an [Int z] outside of this range stands for
      the binary64 value nearest to [z], as [JSON.parse] and [Number] read
      an integer literal.  Adding 1 ([add1]) and [String] ([String_of])
      follow binary64 and the Number::toString algorithm of ECMAScript.
      The two zeros of binary64 are both [Int 0]: the program does not
      tell them apart, as [String] and [JSON.stringify] write 0 for
      either and either plus 1 is 1.
    - Pixel dimensions, which the source computes in binary64 from the
      literals 0.6, 0.7, 0.8 and 1.0 and from the scale of the request,
      are exact rationals [Q].  The module [Double] repeats the products
      of the renderer in binary64: the box widths are the same integers
      there and the canvas height is the same 112, while the scaled
      height and the baseline offset can differ from the exact values in
      the last place.
    - A document of the store is taken by what [JSON.parse] makes of it:
      an object, an array, or a primitive.  A text that does not fit in a
      string of the runtime cannot be read or built: V8 strings have
      fewer than 2^30 characters, and the embedding applies this limit to
      the one thing whose size matters here, the number of elements of an
      array.
    - An object used as a dictionary is a [gmap] of its own properties,
      read and written through [js_get] and [js_set], which account for
      the members every plain object inherits from [Object.prototype].
      The snapshot of the store is a [store]: such an object, or an array
      with its length.
    - The store, the asset files and the image cache live in a [world]
      that the asynchronous functions thread in call order; the calls of
      the file system, of Redis and of sharp are recorded in its [trace].
      An exception is the [Throw] result of the monad [M]. *)

From Stdlib Require Import ZArith QArith Qminmax Qround String Ascii List Lia Lqa.
From Stdlib Require Import DecimalString DecimalPos DecimalN DecimalZ.
From Corelib Require Import PrimFloat FloatOps SpecFloat.
From stdpp Require Import gmap strings list fin_maps.
Import ListNotations.

Local Open Scope string_scope.
Local Open Scope Z_scope.

(** ** JavaScript values and objects *)

Module JS.

(** *** Numbers *)

Inductive jsnum : Type :=
| Int (z : Z)
| Double (f : float).

(** What [JSON.parse] returns for a literal such as [1e999]. *)
Definition Infinite : jsnum := Double infinity.

(** The integers of which binary64 holds every one. *)
Definition safe (z : Z) : bool := (- 2 ^ 53 <=? z) && (z <=? 2 ^ 53).

(** The binary64 value nearest to an integer (ties to even). *)
Definition of_Z (z : Z) : float :=
  SF2Prim (binary_normalize prec emax z 0 false).

(** The integer a binary64 value is, if it is one. *)
Definition integer_of (f : float) : option Z :=
  match Prim2SF f with
  | S754_zero _ => Some 0
  | S754_finite s m e =>
      let sign v := if s then - v else v in
      if 0 <=? e then Some (sign (Zpos m * 2 ^ e))
      else if Zpos m mod 2 ^ (- e) =? 0 then Some (sign (Zpos m / 2 ^ (- e)))
      else None
  | _ => None
  end.

(** A binary64 value as a [jsnum]: [Int] on the safe integers. *)
Definition classify (f : float) : jsnum :=
  match integer_of f with
  | Some z => if safe z then Int z else Double f
  | None => Double f
  end.

(** [Number.isFinite] *)
Definition isFinite (n : jsnum) : bool :=
  match n with
  | Int z => safe z || is_finite (of_Z z)
  | Double f => is_finite f
  end.

(** [n + 1].  On the safe integers the sum is exact, except that
    2^53 + 1 is no binary64 value and rounds to 2^53. *)
Definition add1 (n : jsnum) : jsnum :=
  match n with
  | Int z =>
      if (- 2 ^ 53 <=? z) && (z <? 2 ^ 53) then Int (z + 1)
      else classify (of_Z z + 1)%float
  | Double f => classify (f + 1)%float
  end.

(** *** Number::toString

    For a finite value other than 0, ECMAScript takes the integers [n],
    [k] and [s] with [k] as small as possible such that [s] has [k]
    digits and [s * 10^(n-k)] is read back as the value, and of several
    such [s] the one nearest to the value; it writes the digits of [s]
    in positional notation when [n] is between -5 and 21 and in
    exponent notation otherwise. *)

Definition pow10 (n : Z) : Q := Qpower (10 # 1) n.

Definition pow2 (e : Z) : Q := Qpower (2 # 1) e.

Definition Qltb (a b : Q) : bool := negb (Qle_bool b a).

(** The [n] with [10^(n-1) <= v < 10^n], searched upwards from 1 or
    downwards from 0. *)
Fixpoint exponent_up (fuel : nat) (v : Q) (n : Z) : Z :=
  match fuel with
  | O => n
  | S fuel' => if Qltb v (pow10 n) then n else exponent_up fuel' v (n + 1)
  end.

Fixpoint exponent_down (fuel : nat) (v : Q) (n : Z) : Z :=
  match fuel with
  | O => n
  | S fuel' =>
      if Qle_bool (pow10 (n - 1)) v then n else exponent_down fuel' v (n - 1)
  end.

Definition exponent10 (v : Q) : Z :=
  if Qle_bool 1 v then exponent_up 400 v 1 else exponent_down 400 v 0.

(** The [s] of [k] digits nearest to [v] whose decimal is read back as
    [v]: it lies between the midpoints [low] and [high] to the
    neighbouring binary64 values, which count when the mantissa of [v] is
    even. *)
Definition candidate (v low high : Q) (closed : bool) (n k : Z) : option Z :=
  let p := pow10 (n - k) in
  let s := Qfloor (v / p) in
  let inside c :=
    let x := (inject_Z c * p)%Q in
    if closed then Qle_bool low x && Qle_bool x high
    else Qltb low x && Qltb x high in
  match inside s, inside (s + 1) with
  | true, true =>
      let below := (v - inject_Z s * p)%Q in
      let above := (inject_Z (s + 1) * p - v)%Q in
      if Qltb below above then Some s
      else if Qltb above below then Some (s + 1)
      else if Z.even s then Some s else Some (s + 1)
  | true, false => Some s
  | false, true => Some (s + 1)
  | false, false => None
  end.

Fixpoint shortest (fuel : nat) (v low high : Q) (closed : bool) (n k : Z)
  : Z * Z :=
  match candidate v low high closed n k with
  | Some s => (s, k)
  | None =>
      match fuel with
      | O => (Qfloor (v / pow10 (n - k)), k)
      | S fuel' => shortest fuel' v low high closed n (k + 1)
      end
  end.

(** The decimal digits of an integer, with a minus sign when it is
    negative. *)
Definition digits (s : Z) : string := NilZero.string_of_int (Z.to_int s).

Definition zeroes (n : Z) : string :=
  string_of_list_ascii (repeat "0"%char (Z.to_nat n)).

Definition notation (s k n : Z) : string :=
  let d := digits s in
  if (k <=? n) && (n <=? 21) then d ++ zeroes (n - k)
  else if (0 <? n) && (n <=? 21)
  then substring 0 (Z.to_nat n) d ++ "."
       ++ substring (Z.to_nat n) (Z.to_nat (k - n)) d
  else if (-6 <? n) && (n <=? 0) then "0." ++ zeroes (- n) ++ d
  else
    let e := n - 1 in
    let es := (if 0 <=? e then "+" else "-") ++ digits (Z.abs e) in
    if k =? 1 then d ++ "e" ++ es
    else substring 0 1 d ++ "." ++ substring 1 (Z.to_nat (k - 1)) d
         ++ "e" ++ es.

(** The value [m * 2^e] of a positive binary64 number. *)
Definition positive_toString (m : positive) (e : Z) : string :=
  let v := (inject_Z (Zpos m) * pow2 e)%Q in
  let high := (v + pow2 (e - 1))%Q in
  let low :=
    if (Zpos m =? 2 ^ 52) && (-1074 <? e) then (v - pow2 (e - 2))%Q
    else (v - pow2 (e - 1))%Q in
  let n := exponent10 v in
  let '(s, k) := shortest 17 v low high (Z.even (Zpos m)) n 1 in
  if s =? 10 ^ k then notation 1 1 (n + 1) else notation s k n.

Definition Number_toString (f : float) : string :=
  match Prim2SF f with
  | S754_nan => "NaN"
  | S754_zero _ => "0"
  | S754_infinity s => if s then "-Infinity" else "Infinity"
  | S754_finite s m e => (if s then "-" else "") ++ positive_toString m e
  end.

(** [String(value)].  A safe integer is written with all its digits,
    which is what Number::toString makes of it. *)
Definition String_of (value : jsnum) : string :=
  match value with
  | Int z => if safe z then digits z else Number_toString (of_Z z)
  | Double f => Number_toString f
  end.

(** *** Values and documents *)

(** The value of one entry of the store document.  A nested array or
    object is kept as its JSON text. *)
Inductive jsval : Type :=
| VNull
| VBool (b : bool)
| VNum (n : jsnum)
| VStr (s : string)
| VNested (json : string).

(** What [JSON.parse] returns for a whole document. *)
Inductive parsed : Type :=
| PObject (m : gmap string jsval)
| PArray (items : list jsval)
| PNull
| PBool (b : bool)
| PNum (n : jsnum)
| PStr (s : string).

(** A JSON text, by what [JSON.parse] makes of it. *)
Inductive document : Type :=
| Malformed
| WellFormed (v : parsed).

Definition truthy (v : parsed) : bool :=
  match v with
  | PObject _ | PArray _ => true
  | PNull => false
  | PBool b => b
  | PNum (Int z) => negb (z =? 0)
  | PNum (Double f) => negb (is_zero f || is_nan f)
  | PStr s => negb (String.eqb s "")
  end.

(** [typeof v === 'object'] *)
Definition typeof_object (v : parsed) : bool :=
  match v with
  | PObject _ | PArray _ | PNull => true
  | _ => false
  end.

(** *** Plain objects *)

(** The own, enumerable and inherited members of a plain object.  These
    are the property names of [Object.prototype]. *)
Definition Object_prototype_names : list string :=
  [ "constructor"; "__defineGetter__"; "__defineSetter__"; "hasOwnProperty";
    "__lookupGetter__"; "__lookupSetter__"; "isPrototypeOf";
    "propertyIsEnumerable"; "toString"; "valueOf"; "__proto__";
    "toLocaleString" ].

Definition inherited (name : string) : bool :=
  existsb (String.eqb name) Object_prototype_names.

(** The result of [obj[name]] on an object with own properties of type
    [A]. *)
Inductive property (A : Type) : Type :=
| Own (v : A)
| Inherited (name : string)
| Undefined.
Arguments Own {A} v.
Arguments Inherited {A} name.
Arguments Undefined {A}.

Definition js_get {A} (obj : gmap string A) (name : string) : property A :=
  match obj !! name with
  | Some v => Own v
  | None => if inherited name then Inherited name else Undefined
  end.

(** [obj[name] = v] for a primitive [v].  An own property is overwritten
    and a new name becomes an own property, but for the name [__proto__]
    without an own property the assignment runs the setter of
    [Object.prototype.__proto__], which ignores a value that is neither
    an object nor null. *)
Definition js_set {A} (obj : gmap string A) (name : string) (v : A)
  : gmap string A :=
  match obj !! name with
  | Some _ => <[name := v]> obj
  | None => if String.eqb name "__proto__" then obj else <[name := v]> obj
  end.

(** *** Arrays, and the snapshot of the store *)

(** The property name of the element at an index. *)
Definition index_key (i : N) : string := NilZero.string_of_uint (N.to_uint i).

(** The index a property name is: the name is the decimal of a number
    below 2^32 - 1, without leading zeros. *)
Definition is_index (name : string) : option N :=
  match NilZero.uint_of_string name with
  | Some d =>
      let i := N.of_uint d in
      if String.eqb (index_key i) name && (i <? 2 ^ 32 - 1)%N
      then Some i else None
  | None => None
  end.

(** The string-keyed members of [Array.prototype]. *)
Definition Array_prototype_names : list string :=
  [ "at"; "concat"; "copyWithin"; "entries"; "every"; "fill"; "filter";
    "find"; "findIndex"; "findLast"; "findLastIndex"; "flat"; "flatMap";
    "forEach"; "includes"; "indexOf"; "join"; "keys"; "lastIndexOf"; "map";
    "pop"; "push"; "reduce"; "reduceRight"; "reverse"; "shift"; "slice";
    "some"; "sort"; "splice"; "toReversed"; "toSorted"; "toSpliced";
    "unshift"; "values"; "with" ].

(** What [readStore] returns: a plain object ([array_length] is [None])
    or an array, by its own properties.  The elements of an array are own
    properties under their index keys; an index below the length without
    one is a hole. *)
Record store : Type := Store {
  own : gmap string jsval;
  array_length : option N
}.

#[global] Instance store_lookup : Lookup string jsval store :=
  fun name s => own s !! name.

#[global] Instance store_empty : Empty store := Store ∅ None.

(** The array that [JSON.parse] makes of the elements from index [i]
    on. *)
Fixpoint index_entries (i : N) (items : list jsval) : gmap string jsval :=
  match items with
  | [] => ∅
  | v :: rest => <[index_key i := v]> (index_entries (N.succ i) rest)
  end.

Definition array_of (items : list jsval) : store :=
  Store (index_entries 0 items) (Some (N.of_nat (length items))).

(** [store[name]] *)
Definition store_get (s : store) (name : string) : property jsval :=
  match array_length s with
  | None => js_get (own s) name
  | Some len =>
      if String.eqb name "length" then Own (VNum (Int (Z.of_N len)))
      else
        match own s !! name with
        | Some v => Own v
        | None =>
            if inherited name || existsb (String.eqb name) Array_prototype_names
            then Inherited name else Undefined
        end
  end.

Inductive result (A : Type) : Type :=
| Ok (a : A)
| Throw (err : string).
Arguments Ok {A} a.
Arguments Throw {A} err.

(** The length a number is when it is assigned to [length]: an integer
    from 0 to 2^32 - 1. *)
Definition as_array_length (n : jsnum) : option N :=
  let valid z := if (0 <=? z) && (z <? 2 ^ 32) then Some (Z.to_N z) else None in
  match n with
  | Int z => valid z
  | Double f => match integer_of f with Some z => valid z | None => None end
  end.

Definition kept (len : N) (name : string) : bool :=
  match is_index name with
  | Some i => (i <? len)%N
  | None => true
  end.

(** [store[name] = n] for a number [n].  On an array an index key sets
    the element and extends the length past it, [length] sets the length
    (and drops the elements from it on, or throws when the number is no
    length), and any other name becomes a property that is not an
    element. *)
Definition store_set (s : store) (name : string) (n : jsnum) : result store :=
  match array_length s with
  | None => Ok (Store (js_set (own s) name (VNum n)) None)
  | Some len =>
      if String.eqb name "length" then
        match as_array_length n with
        | Some len' =>
            Ok (Store (if (len' <? len)%N
                       then filter (fun kv => kept len' kv.1 = true) (own s)
                       else own s)
                      (Some len'))
        | None => Throw "RangeError: Invalid array length"
        end
      else
        match is_index name with
        | Some i =>
            Ok (Store (<[name := VNum n]> (own s)) (Some (N.max len (i + 1))))
        | None => Ok (Store (js_set (own s) name (VNum n)) (Some len))
        end
  end.

(** *** JSON *)

(** [JSON.stringify] writes a number that is not finite as [null]. *)
Definition to_json (v : jsval) : jsval :=
  match v with
  | VNum n => if isFinite n then v else VNull
  | _ => v
  end.

(** The elements [JSON.stringify] writes for an array: those below its
    length, a hole as [null]; properties that are no elements are left
    out. *)
Definition elements (s : store) (len : N) : list jsval :=
  map (fun i => default VNull (to_json <$> own s !! index_key (N.of_nat i)))
      (seq 0 (N.to_nat len)).

Definition JSON_stringify (s : store) : document :=
  match array_length s with
  | None => WellFormed (PObject (to_json <$> own s))
  | Some len => WellFormed (PArray (elements s len))
  end.

(** A string of the runtime has fewer than 2^30 characters; the text of
    an array has more characters than twice the number of its
    elements. *)
Definition maxElements : Z := 2 ^ 30.

(** [JSON.stringify] throws "Invalid string length" on such an array. *)
Definition too_long (s : store) : bool :=
  match array_length s with
  | Some len => maxElements <=? Z.of_N len
  | None => false
  end.

(** No string holds the text of such a document. *)
Definition unreadable (v : parsed) : bool :=
  match v with
  | PArray items => maxElements <=? Z.of_nat (length items)
  | _ => false
  end.

(** [String.prototype.padStart]: the filler is [padString] repeated and
    cut to the missing length. *)
Fixpoint filler (padString : string) (fillLen : nat) (rest : string) : string :=
  match fillLen with
  | O => ""
  | S n =>
      match rest with
      | String c rest' => String c (filler padString n rest')
      | EmptyString =>
          match padString with
          | String c rest' => String c (filler padString n rest')
          | EmptyString => ""
          end
      end
  end.

Definition padStart (s : string) (targetLength : nat) (padString : string)
  : string :=
  let stringLength := String.length s in
  if (targetLength <=? stringLength)%nat then s
  else if String.eqb padString "" then s
  else filler padString (targetLength - stringLength) padString ++ s.

(** White space of [trim] and of the regular expression class [\s],
    among the code points below 256. *)
Definition is_space (c : ascii) : bool :=
  let n := nat_of_ascii c in
  ((9 <=? n) && (n <=? 13) || (n =? 32) || (n =? 160))%nat.

Definition lower (c : ascii) : ascii :=
  let n := nat_of_ascii c in
  if ((65 <=? n) && (n <=? 90)
      || (192 <=? n) && (n <=? 222) && negb (n =? 215))%nat
  then ascii_of_nat (n + 32) else c.

Fixpoint toLowerCase (s : string) : string :=
  match s with
  | EmptyString => EmptyString
  | String c s' => String (lower c) (toLowerCase s')
  end.

Fixpoint trimStart (s : string) : string :=
  match s with
  | String c s' => if is_space c then trimStart s' else s
  | EmptyString => EmptyString
  end.

(** The string without its trailing white space. *)
Fixpoint trimEnd (s : string) : string :=
  match s with
  | EmptyString => EmptyString
  | String c s' =>
      match trimEnd s' with
      | EmptyString => if is_space c then EmptyString else String c EmptyString
      | t => String c t
      end
  end.

Definition trim (s : string) : string := trimEnd (trimStart s).

(** [s.split(sep)] for a separator of one character. *)
Fixpoint split (sep : ascii) (s : string) : list string :=
  match s with
  | EmptyString => [EmptyString]
  | String c s' =>
      if Ascii.eqb c sep then EmptyString :: split sep s'
      else match split sep s' with
           | piece :: pieces => String c piece :: pieces
           | [] => [String c EmptyString]
           end
  end.

(** [s.replace(/\s+/g, '-')]: every maximal run of white space becomes
    one dash. *)
Fixpoint dash_spaces (in_run : bool) (s : string) : string :=
  match s with
  | EmptyString => EmptyString
  | String c s' =>
      if is_space c
      then if in_run then dash_spaces true s'
           else String "-" (dash_spaces true s')
      else String c (dash_spaces false s')
  end.

Fixpoint endsWith_rev (s suffix : list ascii) : bool :=
  match suffix, s with
  | [], _ => true
  | c :: suffix', d :: s' => Ascii.eqb c d && endsWith_rev s' suffix'
  | _ :: _, [] => false
  end.

Definition endsWith (s suffix : string) : bool :=
  endsWith_rev (rev (list_ascii_of_string s)) (rev (list_ascii_of_string suffix)).

End JS.
Import JS.

(** ** The world of the server: store backends, asset files, cache *)

Module Env.

(** What [redisClient.get('counters')] resolves to: [null] when the key
    is absent, the stored text, the object or array the client
    deserialized from it, or a number or boolean (of which only the
    truthiness matters). *)
Inductive reply : Type :=
| ReplyNull
| ReplyString (content : document)
| ReplyObject (m : gmap string jsval)
| ReplyArray (items : list jsval)
| ReplyOther (truthy : bool).

(** The calls that leave the process, in call order. *)
Inductive event : Type :=
| RedisGet
| RedisSet (text : document)
| FileRead
| FileWrite (text : document)
| SharpRead (fullPath : string)
| AssetRead (fullPath : string).

Record world : Type := World {
  counters_file : option document;   (* the file at jsonPath, if there is one *)
  file_writable : bool;              (* writeFileSync succeeds *)
  redis_counters : reply;            (* what the next get resolves to *)
  redis_get_ok : bool;               (* the service answers a get *)
  redis_set_ok : bool;               (* the service accepts a set *)
  asset_files : gmap string (list Byte.byte);   (* the files of the asset folder *)
  imageDataUriCache : gmap string string;
  trace : list event
}.

(** What is fixed when the process starts. *)
Record config : Type := Config {
  useRedisClient : bool;       (* useRedis && redisClient *)
  deserializes : bool;         (* the Redis client parses JSON replies itself *)
  sharp : option (list Byte.byte → option (list Byte.byte));
                               (* the sharp module, if it loaded: resize and
                                  recompress, or fail *)
  assetsPath : string
}.

Definition with_counters_file (d : option document) (w : world) : world :=
  World d (file_writable w) (redis_counters w) (redis_get_ok w)
        (redis_set_ok w) (asset_files w) (imageDataUriCache w) (trace w).

Definition with_redis_counters (r : reply) (w : world) : world :=
  World (counters_file w) (file_writable w) r (redis_get_ok w)
        (redis_set_ok w) (asset_files w) (imageDataUriCache w) (trace w).

Definition with_cache (c : gmap string string) (w : world) : world :=
  World (counters_file w) (file_writable w) (redis_counters w)
        (redis_get_ok w) (redis_set_ok w) (asset_files w) c (trace w).

Definition with_trace (t : list event) (w : world) : world :=
  World (counters_file w) (file_writable w) (redis_counters w)
        (redis_get_ok w) (redis_set_ok w) (asset_files w)
        (imageDataUriCache w) t.

(** *** The state monad with exceptions *)

Definition M (A : Type) : Type := world → result A * world.

Definition ret {A} (a : A) : M A := fun w => (Ok a, w).

Definition throw {A} (err : string) : M A := fun w => (Throw err, w).

Definition bind {A B} (m : M A) (k : A → M B) : M B :=
  fun w =>
    match m w with
    | (Ok a, w') => k a w'
    | (Throw err, w') => (Throw err, w')
    end.

(** [try { body } catch { handler }] *)
Definition try_catch {A} (body handler : M A) : M A :=
  fun w =>
    match body w with
    | (Ok a, w') => (Ok a, w')
    | (Throw _, w') => handler w'
    end.

Definition lift {A} (r : result A) : M A := fun w => (r, w).

Definition emit (e : event) : M unit :=
  fun w => (Ok tt, with_trace (trace w ++ [e]) w).

Declare Scope js_scope.
Delimit Scope js_scope with js.
Notation "'let*' x ':=' m 'in' k" := (bind m (fun x => k))
  (at level 10, x name, m at level 100, k at level 200) : js_scope.
Notation "m ';;' k" := (bind m (fun _ => k))
  (at level 100, k at level 200, right associativity) : js_scope.
Local Open Scope js_scope.

(** *** The operations of the outside *)

Definition JSON_parse (text : document) : result parsed :=
  match text with
  | Malformed => Throw "SyntaxError"
  | WellFormed v => Ok v
  end.

(** [JSON.stringify(store)] *)
Definition stringify (s : store) : M document :=
  if too_long s then throw "RangeError: Invalid string length"
  else ret (JSON_stringify s).

(** A reply whose text no string holds. *)
Definition oversized (r : reply) : bool :=
  match r with
  | ReplyString (WellFormed v) => unreadable v
  | ReplyArray items => unreadable (PArray items)
  | _ => false
  end.

Definition redisClient_get : M reply :=
  emit RedisGet ;;
  fun w => if redis_get_ok w
           then if oversized (redis_counters w)
                then (Throw "ERR_STRING_TOO_LONG", w)
                else (Ok (redis_counters w), w)
           else (Throw "fetch failed", w).

Section Backend.

Context (cfg : config).

(** The reply to later gets once a text was stored. *)
Definition stored_reply (text : document) : reply :=
  match text with
  | WellFormed (PObject m) =>
      if deserializes cfg then ReplyObject m else ReplyString text
  | WellFormed (PArray items) =>
      if deserializes cfg then ReplyArray items else ReplyString text
  | _ => ReplyString text
  end.

Definition redisClient_set (text : document) : M unit :=
  emit (RedisSet text) ;;
  fun w => if redis_set_ok w
           then (Ok tt, with_redis_counters (stored_reply text) w)
           else (Throw "fetch failed", w).

Definition fs_readFileSync_json : M document :=
  emit FileRead ;;
  fun w => match counters_file w with
           | Some (WellFormed v) =>
               if unreadable v then (Throw "ERR_STRING_TOO_LONG", w)
               else (Ok (WellFormed v), w)
           | Some Malformed => (Ok Malformed, w)
           | None => (Throw "ENOENT", w)
           end.

Definition fs_writeFileSync_json (text : document) : M unit :=
  emit (FileWrite text) ;;
  fun w => if file_writable w
           then (Ok tt, with_counters_file (Some text) w)
           else (Throw "EROFS", w).

(** *** The counter store *)

(** [data && typeof data === 'object'], and then the object or the array
    itself. *)
Definition as_store (data : parsed) : option store :=
  if truthy data && typeof_object data
  then match data with
       | PObject m => Some (Store m None)
       | PArray items => Some (array_of items)
       | _ => None
       end
  else None.

Definition readStore : M store :=
  if useRedisClient cfg then
    try_catch
      (let* data := redisClient_get in
       match data with
       | ReplyNull | ReplyOther false => ret ∅        (* data is falsy *)
       | ReplyString text =>                          (* typeof data === 'string' *)
           let* parsed := lift (JSON_parse text) in
           match as_store parsed with Some s => ret s | None => ret ∅ end
       | ReplyObject m => ret (Store m None)
       | ReplyArray items => ret (array_of items)
       | ReplyOther true => ret ∅                     (* not an object *)
       end)
      (ret ∅)
  else
    try_catch
      (let* raw := fs_readFileSync_json in
       let* data := lift (JSON_parse raw) in
       match as_store data with Some s => ret s | None => ret ∅ end)
      (ret ∅).

(** In the file branch the source first tries to create [/tmp]; that
    attempt is caught on its own and changes nothing that is modelled. *)
Definition writeStore (store : store) : M unit :=
  if useRedisClient cfg then
    try_catch (let* text := stringify store in redisClient_set text) (ret tt)
  else
    try_catch (let* text := stringify store in fs_writeFileSync_json text)
              (ret tt).

(** [typeof store[name] === 'number' && Number.isFinite(store[name])
    ? store[name] : 0] *)
Definition current (store : store) (name : string) : jsnum :=
  match store_get store name with
  | Own (VNum n) => if isFinite n then n else Int 0
  | _ => Int 0
  end.

Definition getAndIncrementCounter (name : string) : M jsnum :=
  let* store := readStore in
  let current := current store name in
  let nextValue := add1 current in
  let* store := lift (store_set store name nextValue) in
  writeStore store ;;
  ret nextValue.

Definition peekCounter (name : string) : M jsnum :=
  let* store := readStore in
  let current := current store name in
  ret current.

End Backend.

End Env.
Import Env.


(** ** The character images and the asset cache *)

Module Assets.

Local Open Scope js_scope.

Inductive character : Type :=
| Stan | Kyle | MrMackey | Kenny | Cartman | Timmy | Wendy.

(** The path of a character image, as the tables of the source spell it. *)
Definition asset_path (c : character) : string :=
  match c with
  | Stan => "/assets/stan.png"
  | Kyle => "/assets/kyle.png"
  | MrMackey => "/assets/mr mackey.png"
  | Kenny => "/assets/kenny.png"
  | Cartman => "/assets/cartman.png"
  | Timmy => "/assets/timmy.png"
  | Wendy => "/assets/wendy.png"
  end.

(** An element of a character order.  Every element the server makes is
    the path of a character image or, for a key such as [constructor],
    the member of [Object.prototype] that [characterKeyToPath[key]]
    evaluates to. *)
Inductive image : Type :=
| Asset (c : character)
| Member (name : string).

(** What the markup refers to: an encoded payload, or the element itself
    (written with [String], a path stays the path). *)
Inductive href : Type :=
| DataUri (uri : string)
| Plain (img : image).

Definition base64_alphabet : list ascii :=
  list_ascii_of_string
    "ABCDEFGHIJKLMNOPQRSTUVWXYZabcdefghijklmnopqrstuvwxyz0123456789+/".

Definition sextet (n : N) : ascii :=
  nth (N.to_nat (n mod 64)%N) base64_alphabet "="%char.

(** [buffer.toString('base64')] *)
Fixpoint base64 (bytes : list Byte.byte) : string :=
  match bytes with
  | [] => ""
  | [a] =>
      let n := (Byte.to_N a * 65536)%N in
      String (sextet (n / 262144)) (String (sextet (n / 4096)) "==")
  | [a; b] =>
      let n := (Byte.to_N a * 65536 + Byte.to_N b * 256)%N in
      String (sextet (n / 262144))
        (String (sextet (n / 4096)) (String (sextet (n / 64)) "="))
  | a :: b :: c :: rest =>
      let n := (Byte.to_N a * 65536 + Byte.to_N b * 256 + Byte.to_N c)%N in
      String (sextet (n / 262144))
        (String (sextet (n / 4096))
           (String (sextet (n / 64)) (String (sextet n) (base64 rest))))
  end.

Definition is_slash (c : ascii) : bool := Ascii.eqb c "/".

Fixpoint skip_slashes (l : list ascii) : list ascii :=
  match l with
  | c :: l' => if is_slash c then skip_slashes l' else l
  | [] => []
  end.

Fixpoint upto_slash (l : list ascii) : list ascii :=
  match l with
  | c :: l' => if is_slash c then [] else c :: upto_slash l'
  | [] => []
  end.

(** [path.basename] of a POSIX path: the last segment, trailing slashes
    apart. *)
Definition basename (p : string) : string :=
  string_of_list_ascii
    (rev (upto_slash (skip_slashes (rev (list_ascii_of_string p))))).

(** [path.join(dir, file)] for a plain file name. *)
Definition path_join (dir file : string) : string := dir ++ "/" ++ file.

Definition cache_get (imagePath : string) : M (option string) :=
  fun w => (Ok (imageDataUriCache w !! imagePath), w).

Definition cache_set (imagePath dataUri : string) : M unit :=
  fun w => (Ok tt, with_cache (<[imagePath := dataUri]> (imageDataUriCache w)) w).

Definition fs_readFileSync (fullPath : string) : M (list Byte.byte) :=
  emit (AssetRead fullPath) ;;
  fun w => match asset_files w !! fullPath with
           | Some bytes => (Ok bytes, w)
           | None => (Throw "ENOENT", w)
           end.

(** [sharp(fullPath).resize(...).png(...).toBuffer()] *)
Definition sharp_toBuffer (transform : list Byte.byte → option (list Byte.byte))
           (fullPath : string) : M (list Byte.byte) :=
  emit (SharpRead fullPath) ;;
  fun w => match asset_files w !! fullPath with
           | Some bytes =>
               match transform bytes with
               | Some out => (Ok out, w)
               | None => (Throw "sharp failed", w)
               end
           | None => (Throw "Input file is missing", w)
           end.

Section Loader.

Context (cfg : config).

Definition imageToDataUri (imagePath : image) : M href :=
  match imagePath with
  | Member _ =>
      (* never a key of the cache; path.basename rejects what is not a
         string with a TypeError, inside the try *)
      try_catch (throw "ERR_INVALID_ARG_TYPE") (ret (Plain imagePath))
  | Asset c =>
      let* cached := cache_get (asset_path c) in
      match cached with
      | Some dataUri => ret (DataUri dataUri)
      | None =>
          try_catch
            (let fullPath := path_join (assetsPath cfg) (basename (asset_path c)) in
             let* imageBuffer :=
               match sharp cfg with
               | Some transform =>
                   try_catch (sharp_toBuffer transform fullPath)
                             (fs_readFileSync fullPath)
               | None => fs_readFileSync fullPath
               end in
             let mimeType :=
               if endsWith (asset_path c) ".png" then "image/png" else "image/jpeg" in
             let dataUri := "data:" ++ mimeType ++ ";base64," ++ base64 imageBuffer in
             cache_set (asset_path c) dataUri ;;
             ret (DataUri dataUri))
            (ret (Plain imagePath))
      end
  end.

End Loader.

End Assets.
Import Assets.

(** ** The character order and the renderer *)

Module Render.

#[global] Instance character_eq_dec : EqDecision character.
Proof. solve_decision. Defined.

#[global] Instance image_eq_dec : EqDecision image.
Proof. solve_decision. Defined.

Definition characterKeyToPath : gmap string character :=
  list_to_map
    [ ("stan", Stan); ("kyle", Kyle); ("mr-mackey", MrMackey);
      ("kenny", Kenny); ("cartman", Cartman); ("timmy", Timmy);
      ("wendy", Wendy) ].

(** [characterKeyToPath[key]], when it is truthy. *)
Definition path_of_key (key : string) : option image :=
  match js_get characterKeyToPath key with
  | Own c => Some (Asset c)
  | Inherited name => Some (Member name)
  | Undefined => None
  end.

Definition has (seen : list image) (path : image) : bool :=
  existsb (fun p => bool_decide (p = path)) seen.

(** The loop of [parseOrder] over the keys, with its set [seen] and its
    array [resolved]. *)
Fixpoint resolve (keys : list string) (seen resolved : list image)
  : list image :=
  match keys with
  | [] => resolved
  | rawKey :: keys' =>
      let key := dash_spaces false rawKey in
      match path_of_key key with
      | Some path =>
          if negb (has seen path)
          then resolve keys' (seen ++ [path]) (resolved ++ [path])
          else resolve keys' seen resolved
      | None => resolve keys' seen resolved
      end
  end.

Definition parseOrder (orderStr : string) : option (list image) :=
  if String.eqb orderStr "" then None
  else
    let keys :=
      List.filter (fun k => negb (String.eqb k ""))
        (map (fun k => toLowerCase (trim k)) (split "," orderStr)) in
    match resolve keys [] [] with
    | [] => None
    | resolved => Some resolved
    end.

Record palette : Type := Palette {
  bg : string; frame : string; digitBg : string; digitBorder : string;
  text : string
}.

Definition lightPalette : palette :=
  Palette "#f4efe0" "#222222" "#ffe6b3" "#111111" "#222222".

Definition darkPalette : palette :=
  Palette "#1f242b" "#f8f8f8" "#384453" "#f8f8f8" "#fdfdfd".

Definition pickPalette (darkmode : string) (prefersDark : bool) : palette :=
  if String.eqb darkmode "1" then darkPalette
  else if String.eqb darkmode "0" then lightPalette
  else if prefersDark then darkPalette else lightPalette.

Local Open Scope Q_scope.

Definition digitWidth : Q := 140.
Definition digitHeight : Q := 112.
Definition digitGap : Q := 0.
Definition paddingX : Q := 0.
Definition paddingY : Q := 0.

Definition defaultCharacterImages : list image :=
  [ Asset Stan; Asset Kyle; Asset MrMackey; Asset Kenny; Asset Cartman;
    Asset Timmy; Asset Wendy ].

Definition characterScales (c : character) : Q :=
  match c with
  | Cartman => 0.6
  | MrMackey => 0.7
  | Stan => 0.6
  | Kenny => 0.6
  | Timmy => 0.8
  | Wendy => 0.6
  | Kyle => 0.7
  end.

Definition characterPositions (c : character) : Q * Q :=
  match c with
  | Cartman => (0.68, 0.7)
  | MrMackey => (0.67, 0.57)
  | Stan => (0.7, 0.7)
  | Kenny => (0.7, 0.7)
  | Timmy => (0.75, 0.49)
  | Wendy => (0.69, 0.7)
  | Kyle => (0.75, 0.56)
  end.

Definition characterRotations (c : character) : Z :=
  match c with
  | Kyle => 5
  | _ => 0
  end.

(** [characterImages[idx % characterImages.length]]; [None] is
    [undefined], which only an empty array yields. *)
Definition imageAt (characterImages : list image) (idx : nat) : option image :=
  characterImages !! (idx mod length characterImages)%nat.

(** [characterScales[img] || 1.0]: a member of [Object.prototype] and
    [undefined] are no keys of the table. *)
Definition scaleOf (img : option image) : Q :=
  match img with
  | Some (Asset c) => characterScales c
  | _ => 1.0
  end.

Definition positionOf (img : option image) : Q * Q :=
  match img with
  | Some (Asset c) => characterPositions c
  | _ => (0.5, 0.75)
  end.

Definition rotationOf (img : option image) : Z :=
  match img with
  | Some (Asset c) => characterRotations c
  | _ => 0%Z
  end.

Definition getImageHref (cache : gmap string string) (relativePath : image)
  : href :=
  match relativePath with
  | Asset c =>
      match cache !! asset_path c with
      | Some dataUri => DataUri dataUri
      | None => Plain relativePath
      end
  | Member _ => Plain relativePath
  end.

(** The first loop over the display string, from index [idx] on. *)
Fixpoint addWidths (chars : list ascii) (idx len : nat)
         (characterImages : list image) (totalWidth : Q) : Q :=
  match chars with
  | [] => totalWidth
  | _ :: chars' =>
      let imgHref := imageAt characterImages idx in
      let charScale := scaleOf imgHref in
      let totalWidth := totalWidth + digitWidth * charScale in
      let totalWidth :=
        if (Z.of_nat idx <? Z.of_nat len - 1)%Z
        then totalWidth + digitGap else totalWidth in
      addWidths chars' (S idx) len characterImages totalWidth
  end.

(** The second loop, with [Math.max]. *)
Fixpoint maxHeights (chars : list ascii) (idx : nat)
         (characterImages : list image) (maxHeight : Q) : Q :=
  match chars with
  | [] => maxHeight
  | _ :: chars' =>
      let imgHref := imageAt characterImages idx in
      let charScale := scaleOf imgHref in
      maxHeights chars' (S idx) characterImages
                 (Qmax maxHeight (digitHeight * charScale))
  end.

(** One [<g>] element of the markup: the image and the text over it. *)
Record glyph : Type := Glyph {
  g_char : ascii;
  g_image : option image;       (* imgPath *)
  g_href : option href;         (* imgHref *)
  g_x : Q;                      (* currentX *)
  g_y : Q;                      (* charBaseY *)
  g_width : Q;                  (* charWidth *)
  g_height : Q;                 (* charHeight *)
  g_textX : Q;
  g_textY : Q;
  g_rotation : Z;
  g_fontSize : Q
}.

(** The third loop, which places the glyphs from [currentX] on. *)
Fixpoint place (cache : gmap string string) (chars : list ascii) (idx : nat)
         (characterImages : list image) (bottomAlignY currentX : Q)
  : list glyph :=
  match chars with
  | [] => []
  | char :: chars' =>
      let imgPath := imageAt characterImages idx in
      let imgHref := getImageHref cache <$> imgPath in
      let pos := positionOf imgPath in
      let rotation := rotationOf imgPath in
      let charScale := scaleOf imgPath in
      let charWidth := digitWidth * charScale in
      let charHeight := digitHeight * charScale in
      let charBaseY := bottomAlignY - charHeight in
      let textX := charWidth * fst pos in
      let textY := charHeight * snd pos in
      Glyph char imgPath imgHref currentX charBaseY charWidth charHeight
            textX textY rotation (charHeight * 0.28)
      :: place cache chars' (S idx) characterImages bottomAlignY
               (currentX + charWidth + digitGap)
  end.

(** The argument of [renderSouthParkCounter]. *)
Record RenderConfig : Type := {
  value : jsnum;
  padding : nat;
  offset : Z;
  scale : Q;
  align : string;
  darkmode : string;
  pixelated : Z;
  prefix : string;
  characterOrder : list image
}.

(** What the markup is written from: the template of the source fills
    in these values and nothing else. *)
Record svg : Type := Svg {
  displayStr : string;
  totalWidth : Q;
  totalHeight : Q;
  scaledWidth : Q;
  scaledHeight : Q;
  baselineOffset : Q;
  shapeRendering : string;
  fill : string;
  glyphs : list glyph
}.

Definition displayString (prefix : string) (value : jsnum) (padding : nat)
  : string :=
  let strValue := padStart (String_of value) padding "0" in
  prefix ++ strValue.

(** [characterOrder && characterOrder.length ? characterOrder
    : defaultCharacterImages] *)
Definition imagesOf (characterOrder : list image) : list image :=
  match characterOrder with
  | [] => defaultCharacterImages
  | _ :: _ => characterOrder
  end.

Definition canvasWidth (displayStr : string) (characterImages : list image) : Q :=
  addWidths (list_ascii_of_string displayStr) 0 (String.length displayStr)
            characterImages (paddingX * 2).

Definition canvasHeight (displayStr : string) (characterImages : list image) : Q :=
  maxHeights (list_ascii_of_string displayStr) 0 characterImages digitHeight.

Definition renderSouthParkCounter (cache : gmap string string)
           (c : RenderConfig) : svg :=
  let prefersDark := false in
  let palette := pickPalette (darkmode c) prefersDark in
  let displayStr := displayString (prefix c) (value c) (padding c) in
  let characterImages := imagesOf (characterOrder c) in
  let totalWidth := canvasWidth displayStr characterImages in
  let maxHeight := canvasHeight displayStr characterImages in
  let totalHeight := maxHeight in
  let bottomAlignY := maxHeight in
  let scaledWidth := totalWidth * scale c in
  let scaledHeight := totalHeight * scale c in
  let baselineOffset :=
    if String.eqb (align c) "top" then 0
    else if String.eqb (align c) "center" then (totalHeight * (1 - scale c)) / 2
    else totalHeight * (1 - scale c) in
  let shapeRendering := if (pixelated c =? 1)%Z then "crispEdges" else "auto" in
  let digits :=
    place cache (list_ascii_of_string displayStr) 0 characterImages
          bottomAlignY (paddingX + inject_Z (offset c)) in
  Svg displayStr totalWidth totalHeight scaledWidth scaledHeight
      baselineOffset shapeRendering (text palette) digits.

End Render.
Import Render.

(** ** The products of the renderer in binary64 *)

Module Double.

#[local] Set Warnings "-inexact-float".

Definition characterScales (c : character) : float :=
  match c with
  | Cartman => 0.6
  | MrMackey => 0.7
  | Stan => 0.6
  | Kenny => 0.6
  | Timmy => 0.8
  | Wendy => 0.6
  | Kyle => 0.7
  end%float.

(** [digitWidth * charScale] and [digitHeight * charScale] *)
Definition charWidth (c : character) : float := (140 * characterScales c)%float.

Definition charHeight (c : character) : float := (112 * characterScales c)%float.

(** [Math.max] of two numbers, neither of them NaN. *)
Definition Math_max (a b : float) : float := if (a <? b)%float then b else a.

(** [totalHeight * scale] and the baseline offset, for the total height
    112 that every canvas has. *)
Definition scaledHeight (scale : float) : float := (112 * scale)%float.

Definition baselineOffset (align : string) (scale : float) : float :=
  if String.eqb align "top" then 0%float
  else if String.eqb align "center" then ((112 * (1 - scale)) / 2)%float
  else (112 * (1 - scale))%float.

End Double.

(** ** The request handler of [/@:name] *)

Module Handler.

Local Open Scope js_scope.

(** The query after [querySchema.parse]. *)
Record query : Type := Query {
  q_num : Z;
  q_prefix : string;
  q_inc : Z;
  q_padding : nat;
  q_offset : Z;
  q_scale : Q;
  q_align : string;
  q_darkmode : string;
  q_pixelated : Z;
  q_order : string
}.

Inductive response : Type :=
| BadRequest (message : string)
| Image (document : svg).

Definition cache_has (imgPath : image) : M bool :=
  fun w => (Ok match imgPath with
               | Asset c => bool_decide (is_Some (imageDataUriCache w !! asset_path c))
               | Member _ => false
               end, w).

Section Route.

Context (cfg : config).

Fixpoint loadImages (imagesToLoad : list image) : M unit :=
  match imagesToLoad with
  | [] => ret tt
  | imgPath :: rest =>
      (let* cached := cache_has imgPath in
       if cached then ret tt
       else try_catch (imageToDataUri cfg imgPath ;; ret tt) (ret tt)) ;;
      loadImages rest
  end.

Definition handle (name : string) (q : query) : M response :=
  if String.eqb name "" || (128 <? String.length name)%nat
  then ret (BadRequest "Invalid name")
  else
    let* value :=
      if negb (q_num q =? 0) && (q_num q >? 0)
      then ret (Int (q_num q))
      else if q_inc q =? 1 then getAndIncrementCounter cfg name
           else peekCounter cfg name in
    let customOrder := parseOrder (q_order q) in
    let imagesToLoad :=
      match customOrder with
      | Some (img :: imgs) => img :: imgs
      | _ => defaultCharacterImages
      end in
    loadImages imagesToLoad ;;
    fun w =>
      (Ok (Image (renderSouthParkCounter (imageDataUriCache w)
                    {| value := value; padding := q_padding q;
                       offset := q_offset q; scale := q_scale q;
                       align := q_align q; darkmode := q_darkmode q;
                       pixelated := q_pixelated q; prefix := q_prefix q;
                       characterOrder := imagesToLoad |})), w).

End Route.

End Handler.
Import Handler.

(** ** The preload pass at start-up *)

Module Startup.

Local Open Scope js_scope.

(** The module-level array [characterImages] that [preloadImages] walks. *)
Definition characterImages : list image :=
  [ Asset Stan; Asset Kyle; Asset MrMackey; Asset Kenny; Asset Cartman;
    Asset Timmy; Asset Wendy ].

Section Preload.

Context (cfg : config).

(** The loop of [preloadImages]: each image is loaded inside its own
    [try]; the sizes it logs are not modelled. *)
Fixpoint preloadEach (images : list image) : M unit :=
  match images with
  | [] => ret tt
  | imgPath :: rest =>
      try_catch (imageToDataUri cfg imgPath ;; ret tt) (ret tt) ;;
      preloadEach rest
  end.

Definition preloadImages : M unit := preloadEach characterImages.

End Preload.

End Startup.
Import Startup.

(** ** The script of the builder page *)

Module Builder.

(** The [data-key] attribute of the item of a character. *)
Definition dataKey (c : character) : string :=
  match c with
  | Stan => "stan"
  | Kyle => "kyle"
  | MrMackey => "mr-mackey"
  | Kenny => "kenny"
  | Cartman => "cartman"
  | Timmy => "timmy"
  | Wendy => "wendy"
  end.

(** [items.join(sep)] *)
Fixpoint join (sep : string) (items : list string) : string :=
  match items with
  | [] => ""
  | [item] => item
  | item :: rest => item ++ sep ++ join sep rest
  end.

(** The value the [dragend] listener writes to the hidden order field:
    the keys of the items, in the order they have in the page. *)
Definition orderValue (items : list character) : string :=
  join "," (map dataKey items).

(** The padding of [buildUrl], from what [parseInt] made of the input
    ([None] for NaN). *)
Definition clampPadding (parsed : option Z) : Z :=
  match parsed with
  | Some padding => if (padding <? 1) || (padding >? 16) then 7 else padding
  | None => 7
  end.

(** The loop [for (i = 1; i <= padding; i++) previewNum += String(i % 10)],
    from [i] on with [count] rounds to go. *)
Fixpoint previewFrom (i : Z) (count : nat) (previewNum : string) : string :=
  match count with
  | O => previewNum
  | S count' =>
      previewFrom (i + 1) count' (previewNum ++ String_of (Int (i mod 10)))
  end.

Definition previewNum (padding : Z) : string :=
  previewFrom 1 (Z.to_nat padding) "".

(** [Number(v)] of the query schema, for a string of decimal digits. *)
Definition Number_of (v : string) : option Z :=
  Z.of_int <$> NilZero.int_of_string v.

(** The query the handler gets from the preview URL of [buildUrl(true)],
    given what [parseInt] made of the padding field and the values of the
    other fields: [inc] is 0, [num] is the preview number, and what the URL
    leaves out has the default of the query schema. *)
Definition previewQuery (parsed : option Z) (darkmode prefix order : string)
  : option query :=
  let padding := clampPadding parsed in
  match Number_of (previewNum padding) with
  | Some num =>
      Some (Query num prefix 0 (Z.to_nat padding) 0 1 "top"
                  (if String.eqb darkmode "" then "auto" else darkmode) 1
                  (trim order))
  | None => None
  end.

End Builder.
Import Builder.

(** ** The first variant of the server: counters in SQLite *)

Module Sqlite.

(** The table [counters], whose primary key is the name: the value of a
    row, as the number the driver returns for it.  (The driver binds a
    number as a double and SQLite keeps an integral one as an integer, so
    that a row reads back as the number that was written.  No row holds
    NaN, which SQLite takes for NULL and the column refuses.) *)
Definition table : Type := gmap string jsnum.

(** The statement [SELECT value FROM counters WHERE name = ?] *)
Definition getCounterStmt_get (name : string) (db : table) : option jsnum :=
  db !! name.

(** [INSERT INTO counters (name, value) VALUES (?, ?)]: a second row for a
    name violates the primary key. *)
Definition insertCounterStmt_run (name : string) (value : jsnum)
           (db : table) : result table :=
  match db !! name with
  | Some _ => Throw "SQLITE_CONSTRAINT_PRIMARYKEY"
  | None => Ok (<[name := value]> db)
  end.

(** [UPDATE counters SET value = ? WHERE name = ?] *)
Definition updateCounterStmt_run (value : jsnum) (name : string)
           (db : table) : table :=
  match db !! name with
  | Some _ => <[name := value]> db
  | None => db
  end.

Definition getAndIncrementCounter (name : string) (db : table)
  : result jsnum * table :=
  match getCounterStmt_get name db with
  | None =>
      match insertCounterStmt_run name (Int 1) db with
      | Ok db' => (Ok (Int 1), db')
      | Throw err => (Throw err, db)
      end
  | Some value =>
      let nextValue := add1 value in
      (Ok nextValue, updateCounterStmt_run nextValue name db)
  end.

Definition peekCounter (name : string) (db : table) : jsnum :=
  match getCounterStmt_get name db with
  | None => Int 0
  | Some value => value
  end.

Local Open Scope Q_scope.

Definition digitWidth : Q := 32.
Definition digitHeight : Q := 42.
Definition digitGap : Q := 4.
Definition paddingX : Q := 12.
Definition paddingY : Q := 12.

Definition digitAccents : list string :=
  [ "#f6b7b7"; "#f6e0b7"; "#f6f2b7"; "#c0f6b7"; "#b7f6e9"; "#b7d5f6";
    "#cdb7f6"; "#f6b7e6"; "#f6c5b7"; "#b7f6c7" ].

(** [/[0-9]/.test(char)] *)
Definition isDigit (char : ascii) : bool :=
  let n := nat_of_ascii char in ((48 <=? n) && (n <=? 57))%nat.

(** [isDigit ? digitAccents[Number(char) % digitAccents.length] : '#f4e0b7'] *)
Definition accentColor (char : ascii) : string :=
  if isDigit char
  then nth ((nat_of_ascii char - 48) mod length digitAccents)%nat digitAccents ""
  else "#f4e0b7".

(** One [<g>] element of this variant. *)
Record digit : Type := Digit {
  d_char : ascii;
  d_x : Q;
  d_y : Q;
  d_accent : string
}.

Fixpoint digits (chars : list ascii) (idx : nat) (offset : Z) : list digit :=
  match chars with
  | [] => []
  | char :: chars' =>
      let x := paddingX + inject_Z (Z.of_nat idx) * (digitWidth + digitGap)
               + inject_Z offset in
      let charBaseY := paddingY in
      Digit char x charBaseY (accentColor char) :: digits chars' (S idx) offset
  end.

(** The width of the canvas of this variant.  The source takes it from
    [displayStr.length], the number of UTF-16 code units, while the
    glyphs are those of [Array.from(displayStr)], one per code point; on
    the strings of the embedding, whose characters are below U+0100, the
    two are the same. *)
Definition totalWidth (displayStr : string) : Q :=
  paddingX * 2 + inject_Z (Z.of_nat (String.length displayStr)) * digitWidth
  + (inject_Z (Z.of_nat (String.length displayStr)) - 1) * digitGap.


End Sqlite.

(** ** The vocabulary of the statements *)

(** *** The counter store *)

(** The snapshot a document yields when it is read: the object or the
    array it holds, and the empty object when it is malformed, too long
    to be read, or holds anything else. *)
Definition snapshot (text : document) : store :=
  match text with
  | WellFormed v =>
      if unreadable v then ∅
      else match as_store v with Some s => s | None => ∅ end
  | Malformed => ∅
  end.

(** The snapshot a read of the store yields in a world. *)
Definition stored (cfg : config) (w : world) : store :=
  if useRedisClient cfg then
    if redis_get_ok w then
      match redis_counters w with
      | ReplyObject m => Store m None
      | ReplyArray items => snapshot (WellFormed (PArray items))
      | ReplyString text => snapshot text
      | ReplyNull | ReplyOther _ => ∅
      end
    else ∅
  else
    match counters_file w with
    | Some text => snapshot text
    | None => ∅
    end.

(** The snapshot after [store[name] = n]. *)
Definition assigned (s : store) (name : string) (n : jsnum) : store :=
  match store_set s name n with
  | Ok s' => s'
  | Throw _ => s
  end.

(** The snapshot is a plain object, not an array. *)
Definition plain (s : store) : Prop := array_length s = None.

Definition read_event (cfg : config) : event :=
  if useRedisClient cfg then RedisGet else FileRead.

Definition write_event (cfg : config) (text : document) : event :=
  if useRedisClient cfg then RedisSet text else FileWrite text.

(** The backend in use accepts a write. *)
Definition can_write (cfg : config) (w : world) : bool :=
  if useRedisClient cfg then redis_set_ok w else file_writable w.

Definition logged (e : event) (w : world) : world :=
  with_trace (trace w ++ [e]) w.

Definition persist (cfg : config) (text : document) (w : world) : world :=
  if useRedisClient cfg then with_redis_counters (stored_reply cfg text) w
  else with_counters_file (Some text) w.

(** The world after [writeStore(s)]: nothing happens when the text of the
    snapshot cannot be built, else the backend is called and, when it
    accepts the write, holds the text. *)
Definition after_write (cfg : config) (s : store) (w : world) : world :=
  if too_long s then w
  else if can_write cfg w
       then persist cfg (JSON_stringify s)
                    (logged (write_event cfg (JSON_stringify s)) w)
       else logged (write_event cfg (JSON_stringify s)) w.


Definition is_store_event (e : event) : bool :=
  match e with
  | RedisGet | RedisSet _ | FileRead | FileWrite _ => true
  | SharpRead _ | AssetRead _ => false
  end.

Definition store_events (t : list event) : list event :=
  List.filter is_store_event t.

(** The persisted counters are the same in both worlds, and as
    reachable. *)
Definition store_unchanged (w w' : world) : Prop :=
  counters_file w' = counters_file w ∧
  redis_counters w' = redis_counters w ∧
  redis_get_ok w' = redis_get_ok w.

(** The store was left alone between [w] and [w']: same content, and no
    read or write of it in between. *)
Definition same_store (w w' : world) : Prop :=
  store_unchanged w w' ∧ store_events (trace w') = store_events (trace w).

(** [n] calls of [getAndIncrementCounter] in a row, with the values they
    return. *)
Fixpoint increments (cfg : config) (name : string) (n : nat)
  : M (list jsnum) :=
  match n with
  | O => ret []
  | S n' =>
      bind (getAndIncrementCounter cfg name) (fun v =>
      bind (increments cfg name n') (fun vs => ret (v :: vs)))
  end.

(** Writes succeed, and so do the reads of the remote service. *)
Definition store_ready (cfg : config) (w : world) : Prop :=
  can_write cfg w = true ∧ (useRedisClient cfg = true → redis_get_ok w = true).

(** A process on the file backend without sharp, and a world with no
    counters file, no Redis key and no asset file. *)
Definition file_config : config := Config false true None "/srv/assets".

Definition fresh_world : world := World None true ReplyNull true true ∅ ∅ [].

(** A world whose counters file holds one and a half views of "mason",
    one whose counters file holds the array [[7]], and one whose counters
    file holds the empty array. *)
#[local] Set Warnings "-inexact-float".



Definition empty_array_world : world :=
  World (Some (WellFormed (PArray []))) true ReplyNull true true ∅ ∅ [].

(** *** The store as the specification states it *)



(** The snapshot that [getAndIncrementCounter] hands to [writeStore], and
    the snapshot that is written back: what a read makes of its text. *)
Definition handed_over (cfg : config) (name : string) (w : world) : store :=
  assigned (stored cfg w) name (add1 (current (stored cfg w) name)).

Definition written_back (cfg : config) (name : string) (w : world) : store :=
  snapshot (JSON_stringify (handed_over cfg name w)).

(** Only the entry of the name differs between the snapshot read and the
    snapshot written back: every other name has the counter value it had,
    and an entry if and only if it had one. *)
Definition frame_as_stated (cfg : config) (name : string) (w : world) : Prop :=
  ∀ other, other ≠ name →
    current (written_back cfg name w) other = current (stored cfg w) other ∧
    (is_Some (written_back cfg name w !! other)
     ↔ is_Some (stored cfg w !! other)).

(** *** The asset cache *)

Definition fullPathOf (cfg : config) (c : character) : string :=
  path_join (assetsPath cfg) (basename (asset_path c)).

Definition dataUriOf (c : character) (imageBuffer : list Byte.byte) : string :=
  "data:" ++ (if endsWith (asset_path c) ".png" then "image/png" else "image/jpeg")
  ++ ";base64," ++ base64 imageBuffer.

(** The bytes a cache miss encodes, if the load succeeds: the output of
    sharp, or the raw file when sharp is absent or fails. *)
Definition loaded (cfg : config) (c : character) (w : world)
  : option (list Byte.byte) :=
  match asset_files w !! fullPathOf cfg c with
  | Some bytes =>
      match sharp cfg with
      | Some transform =>
          match transform bytes with Some out => Some out | None => Some bytes end
      | None => Some bytes
      end
  | None => None
  end.

(** The calls a cache miss makes. *)
Definition load_events (cfg : config) (c : character) (w : world) : list event :=
  match sharp cfg with
  | Some transform =>
      match transform <$> asset_files w !! fullPathOf cfg c with
      | Some (Some _) => [SharpRead (fullPathOf cfg c)]
      | _ => [SharpRead (fullPathOf cfg c); AssetRead (fullPathOf cfg c)]
      end
  | None => [AssetRead (fullPathOf cfg c)]
  end.

(** Case analysis on the calls of a cache miss. *)
Ltac case_load cfg :=
  unfold load_events;
  destruct (sharp cfg) as [?transform|]; [destruct (_ <$> _) as [[|]|]|].

(** How often a trace records a read of the file, and a run of sharp on
    it. *)
Definition reads_of (fullPath : string) (t : list event) : nat :=
  length (List.filter (fun e => match e with
                                | AssetRead p => String.eqb p fullPath
                                | _ => false
                                end) t).

Definition transforms_of (fullPath : string) (t : list event) : nat :=
  length (List.filter (fun e => match e with
                                | SharpRead p => String.eqb p fullPath
                                | _ => false
                                end) t).

(** Memoization as the specification states it: two calls in a row return
    the same, and over both the file is read and transformed at most
    once. *)
Definition memoized (cfg : config) (img : image) (w : world) : Prop :=
  let first := imageToDataUri cfg img w in
  let second := imageToDataUri cfg img (snd first) in
  fst first = fst second ∧
  ∀ fullPath,
    (reads_of fullPath (trace (snd second)) <= reads_of fullPath (trace w) + 1)%nat ∧
    (transforms_of fullPath (trace (snd second))
     <= transforms_of fullPath (trace w) + 1)%nat.

(** A world whose asset folder holds the image of Stan (here, the first
    four bytes of a PNG file). *)
Definition stan_world : world :=
  World None true ReplyNull true true
        (<["/srv/assets/stan.png" := [Byte.x89; Byte.x50; Byte.x4e; Byte.x47]]> ∅)
        ∅ [].

(** *** The request handler *)

(** The override as the specification states it: a request with
    [num > 0] still increments the persisted counter of the requested name
    (for [inc = 1]) or still reads the store (for [inc = 0]). *)
Definition counted_under_override (cfg : config) (name : string) (q : query)
           (w : world) : Prop :=
  let w' := snd (handle cfg name q w) in
  (q_inc q = 1 →
     current (stored cfg w') name = add1 (current (stored cfg w) name)) ∧
  (q_inc q = 0 → store_events (trace w') ≠ store_events (trace w)).

(** A world whose counters file holds 41 views of "mason", and a request
    with [num=5]. *)
Definition counted_world : world :=
  World (Some (WellFormed (PObject {[ "mason" := VNum (Int 41) ]})))
        true ReplyNull true true ∅ ∅ [].

Definition override_query : query :=
  Query 5 "" 1 7 0 1 "top" "auto" 1 "".

(** *** The character order *)

(** The glyph identifiers: the keys of [characterKeyToPath]. *)
Definition glyph_identifiers : list string :=
  ["stan"; "kyle"; "mr-mackey"; "kenny"; "cartman"; "timmy"; "wendy"].

(** The keys [parseOrder] looks up for an order string. *)
Definition normalized_keys (orderStr : string) : list string :=
  map (dash_spaces false)
      (List.filter (fun k => negb (String.eqb k ""))
         (map (fun k => toLowerCase (trim k)) (split "," orderStr))).

(** Those of them that are glyph identifiers. *)
Definition valid_keys (orderStr : string) : list string :=
  List.filter (fun k => existsb (String.eqb k) glyph_identifiers)
              (normalized_keys orderStr).

(** The request [/@mason?order=constructor]. *)
Definition constructor_query : query :=
  Query 0 "" 1 7 0 1 "top" "auto" 1 "constructor".

(** *** The layout *)

Definition zeros (n : nat) : string := string_of_list_ascii (repeat "0"%char n).

(** Zero padding as the specification words it: leading ['0'] characters
    up to at least [padding] characters, and the digits in full. *)
Definition zero_padded (digits : string) (padding : nat) : string :=
  zeros (padding - String.length digits) ++ digits.

(** The decimal rendering of an integer: its digits in base ten, after a
    minus sign when it is negative. *)
Definition decimal (z : Z) : string := NilZero.string_of_int (Z.to_int z).

(** Claim C7 as the specification states it, for an integer value: the
    display string is the prefix followed by the decimal rendering of the
    value, zero padded. *)
Definition padded_as_stated (c : RenderConfig) : Prop :=
  ∀ z, value c = Int z →
    displayStr (renderSouthParkCounter ∅ c)
    = prefix c ++ zero_padded (decimal z) (padding c).

(** The value 10^21, as of a request with [num=1e21], with the defaults
    of the query schema. *)
Definition large_number : RenderConfig :=
  {| value := Int (10 ^ 21); padding := 7; offset := 0; scale := 1;
     align := "top"; darkmode := "auto"; pixelated := 1; prefix := "";
     characterOrder := [] |}.

(** The heights of the glyph boxes along a display string. *)
Definition boxHeights (s : string) (characterImages : list image) : list Q :=
  map (fun idx => (digitHeight * scaleOf (imageAt characterImages idx))%Q)
      (seq 0 (String.length s)).

(** The maximum glyph box height across the sequence. *)
Definition tallestBox (s : string) (characterImages : list image) : Q :=
  fold_right Qmax 0%Q (boxHeights s characterImages).

(** The counter 0 with one digit, held by Stan alone. *)
Definition stan_only : RenderConfig :=
  {| value := Int 0; padding := 1; offset := 0; scale := 1; align := "top";
     darkmode := "auto"; pixelated := 1; prefix := "";
     characterOrder := [Asset Stan] |}.

(** Five digits over the order of Stan and Kyle. *)
Definition stan_kyle : RenderConfig :=
  {| value := Int 0; padding := 5; offset := 0; scale := 1; align := "top";
     darkmode := "auto"; pixelated := 1; prefix := "";
     characterOrder := [Asset Stan; Asset Kyle] |}.

(** *** Two requests at once *)

(** Two calls of [getAndIncrementCounter] whose steps interleave at the
    [await]s on the remote service: both read the store before either
    writes it.  Each works on the object its own read returned. *)
Definition racing (cfg : config) (first second : string)
  : M (jsnum * jsnum) :=
  bind (readStore cfg) (fun storeA =>
  bind (readStore cfg) (fun storeB =>
  let nextA := add1 (current storeA first) in
  bind (lift (store_set storeA first nextA)) (fun storeA =>
  bind (writeStore cfg storeA) (fun _ =>
  let nextB := add1 (current storeB second) in
  bind (lift (store_set storeB second nextB)) (fun storeB =>
  bind (writeStore cfg storeB) (fun _ =>
  ret (nextA, nextB))))))).

(** A process on the Redis backend, whose client deserializes replies, and
    a world whose key holds 41 views of "mason" and 7 of "kyle". *)
Definition redis_config : config := Config true true None "/srv/assets".

Definition redis_world : world :=
  World None true
        (ReplyObject {[ "mason" := VNum (Int 41); "kyle" := VNum (Int 7) ]})
        true true ∅ ∅ [].

(** *** The asset cache over a request *)

(** The calls of a trace that touch the asset folder. *)
Definition asset_events (t : list event) : list event :=
  List.filter (fun e => negb (is_store_event e)) t.

(** Every file of the asset folder that a character image names exists. *)
Definition assets_present (cfg : config) (w : world) : Prop :=
  ∀ c, is_Some (asset_files w !! fullPathOf cfg c).

(** Every character image has an entry in the cache. *)
Definition cache_warm (w : world) : Prop :=
  ∀ c, is_Some (imageDataUriCache w !! asset_path c).

(** What loading images may change of the asset side of a world: the
    files stay as they are, and the cache keeps every entry it has. *)
Definition cache_grows (w w' : world) : Prop :=
  asset_files w' = asset_files w ∧ imageDataUriCache w ⊆ imageDataUriCache w'.

(** A world whose asset folder holds a (one byte) file for each of the
    seven characters, and one whose cache holds an entry for each. *)
Definition stocked_world : world :=
  World None true ReplyNull true true
        (list_to_map
           (map (fun c => (fullPathOf file_config c, [Byte.x89]))
                [Stan; Kyle; MrMackey; Kenny; Cartman; Timmy; Wendy]))
        ∅ [].

Definition warm_world : world :=
  World None true ReplyNull true true ∅
        (list_to_map
           (map (fun c => (asset_path c, dataUriOf c [Byte.x89]))
                [Stan; Kyle; MrMackey; Kenny; Cartman; Timmy; Wendy]))
        [].

(** A process with sharp installed, and sharp failing on every input. *)
Definition failing_sharp_config : config :=
  Config false true (Some (fun _ => None)) "/srv/assets".

(** *** A request, step by step *)

(** The name passes the check of the handler. *)
Definition well_named (name : string) : Prop :=
  name ≠ "" ∧ (String.length name <= 128)%nat.

(** [num && num > 0] *)
Definition overridden (q : query) : bool :=
  negb (q_num q =? 0) && (q_num q >? 0).

(** The images a request loads and renders with. *)
Definition requestedImages (q : query) : list image :=
  match parseOrder (q_order q) with
  | Some (img :: imgs) => img :: imgs
  | _ => defaultCharacterImages
  end.

(** The value a request displays, and the world after it was determined. *)
Definition shown (cfg : config) (name : string) (q : query) (w : world)
  : jsnum :=
  if overridden q then Int (q_num q)
  else if q_inc q =? 1 then add1 (current (stored cfg w) name)
       else current (stored cfg w) name.

Definition counted (cfg : config) (name : string) (q : query) (w : world) : world :=
  if overridden q then w
  else if q_inc q =? 1 then snd (getAndIncrementCounter cfg name w)
       else logged (read_event cfg) w.

(** The argument the handler passes to the renderer. *)
Definition renderConfigOf (q : query) (value : jsnum) : RenderConfig :=
  {| value := value; padding := q_padding q; offset := q_offset q;
     scale := q_scale q; align := q_align q; darkmode := q_darkmode q;
     pixelated := q_pixelated q; prefix := q_prefix q;
     characterOrder := requestedImages q |}.

(** The request [/@mason] with the defaults of the query schema, and the
    same with [inc=0]. *)
Definition default_query : query := Query 0 "" 1 7 0 1 "top" "auto" 1 "".

Definition peek_query : query := Query 0 "" 0 7 0 1 "top" "auto" 1 "".

(** A world whose counters file cannot be written, and one whose counters
    file holds a string where the count of "mason" should be. *)
Definition readonly_world : world :=
  World (Some (WellFormed (PObject {[ "mason" := VNum (Int 41) ]})))
        false ReplyNull true true ∅ ∅ [].

Definition text_count_world : world :=
  World (Some (WellFormed (PObject {[ "mason" := VStr "41" ]})))
        true ReplyNull true true ∅ ∅ [].

(** The counter 0 with the default padding and order, at half the size
    and centred. *)
Definition half_size_centered : RenderConfig :=
  {| value := Int 0; padding := 7; offset := 0; scale := 1 # 2;
     align := "center";
     darkmode := "auto"; pixelated := 1; prefix := ""; characterOrder := [] |}.

(** *** Boxes in a row *)

Definition Qsum (l : list Q) : Q := fold_right Qplus 0%Q l.

(** The boxes of the glyphs stand side by side from [x] on: each begins
    where the one before it ends. *)
Fixpoint abutting (x : Q) (gs : list glyph) : Prop :=
  match gs with
  | [] => True
  | g :: gs' => (g_x g == x)%Q ∧ abutting (x + g_width g)%Q gs'
  end.

(** * Properties *)

#[local] Set Warnings "-inexact-float".

(** ** The counter store *)

Lemma readStore_spec cfg w :
  readStore cfg w = (Ok (stored cfg w), logged (read_event cfg) w).
Proof.
  unfold readStore, stored, snapshot, read_event, logged, redisClient_get,
    fs_readFileSync_json, try_catch, bind, emit, ret, lift, oversized.
  destruct (useRedisClient cfg); simpl.
  - destruct (redis_get_ok w); [|reflexivity].
    destruct (redis_counters w) as [|[|[m|items| |[]|[z|f]|s]]|m|items|[]];
      simpl; unfold as_store; simpl; try reflexivity.
    all: repeat match goal with
           | |- context [if ?b then _ else _] => destruct b; simpl
           end; reflexivity.
  - destruct (counters_file w) as [[|[m|items| |[]|[z|f]|s]]|];
      simpl; unfold as_store; simpl; try reflexivity.
    all: repeat match goal with
           | |- context [if ?b then _ else _] => destruct b; simpl
           end; reflexivity.
Qed.

Lemma writeStore_spec cfg s w :
  writeStore cfg s w = (Ok tt, after_write cfg s w).
Proof.
  unfold writeStore, after_write, stringify, write_event, can_write, persist,
    logged, redisClient_set, fs_writeFileSync_json, try_catch, bind, emit,
    ret, throw.
  destruct (useRedisClient cfg); destruct (too_long s); simpl; try reflexivity.
  - destruct (redis_set_ok w); reflexivity.
  - destruct (file_writable w); reflexivity.
Qed.

Lemma stored_bounded cfg w len :
  array_length (stored cfg w) = Some len → Z.of_N len < maxElements.
Proof.
  assert (Hs : ∀ text, array_length (snapshot text) = Some len →
                       Z.of_N len < maxElements).
  { intros [|v]; [discriminate|]. unfold snapshot.
    destruct (unreadable v) eqn:Hv; [discriminate|].
    destruct v as [m|items| |[]|[z|f]|s]; unfold as_store; simpl;
      try discriminate.
    - intros [= <-]. simpl in Hv. rewrite nat_N_Z. lia.
    - destruct (negb _); discriminate.
    - destruct (negb _); discriminate.
    - destruct (negb _); discriminate. }
  unfold stored.
  destruct (useRedisClient cfg).
  - destruct (redis_get_ok w); [|discriminate].
    destruct (redis_counters w); try discriminate; apply Hs.
  - destruct (counters_file w); [apply Hs|discriminate].
Qed.

Lemma isFinite_safe z : safe z = true → isFinite (Int z) = true.
Proof. intros Hz. simpl. rewrite Hz. reflexivity. Qed.


(** On the safe integers below 2^53 the sum is the integer sum. *)
Lemma add1_safe z : - 2 ^ 53 <= z < 2 ^ 53 → add1 (Int z) = Int (z + 1).
Proof.
  intros [Hlo Hhi]. unfold add1.
  destruct (Z.leb_spec (- 2 ^ 53) z); [|lia].
  destruct (Z.ltb_spec z (2 ^ 53)); [reflexivity|lia].
Qed.

Lemma current_length s len :
  array_length s = Some len → Z.of_N len < maxElements →
  current s "length" = Int (Z.of_N len).
Proof.
  intros Hs Hlen. unfold current, store_get. rewrite Hs, String.eqb_refl.
  rewrite isFinite_safe; [reflexivity|].
  unfold safe, maxElements in *.
  apply andb_true_iff. split; [apply Z.leb_le|apply Z.leb_le]; lia.
Qed.

Lemma store_set_throws s name n err :
  store_set s name n = Throw err →
  ∃ len, array_length s = Some len ∧ name = "length" ∧ as_array_length n = None.
Proof.
  unfold store_set. destruct (array_length s) as [len|]; [|discriminate].
  destruct (String.eqb_spec name "length") as [->|_].
  - destruct (as_array_length n); [discriminate|]. eauto.
  - destruct (is_index name); discriminate.
Qed.

(** The assignment of [getAndIncrementCounter] never throws on a snapshot
    that was read. *)
Lemma store_set_stored cfg w name :
  store_set (stored cfg w) name (add1 (current (stored cfg w) name))
  = Ok (assigned (stored cfg w) name (add1 (current (stored cfg w) name))).
Proof.
  unfold assigned.
  destruct (store_set _ _ _) as [s'|err] eqn:Hset; [reflexivity|].
  exfalso. apply store_set_throws in Hset as (len & Hs & -> & Hnone).
  pose proof (stored_bounded cfg w len Hs) as Hlen.
  rewrite (current_length _ len Hs Hlen) in Hnone.
  unfold maxElements in Hlen.
  rewrite add1_safe in Hnone by lia.
  unfold as_array_length in Hnone.
  destruct (Z.leb_spec 0 (Z.of_N len + 1)); [|lia].
  destruct (Z.ltb_spec (Z.of_N len + 1) (2 ^ 32)); [discriminate|lia].
Qed.

Lemma getAndIncrementCounter_spec cfg name w :
  getAndIncrementCounter cfg name w =
    (Ok (add1 (current (stored cfg w) name)),
     after_write cfg
       (assigned (stored cfg w) name (add1 (current (stored cfg w) name)))
       (logged (read_event cfg) w)).
Proof.
  unfold getAndIncrementCounter, bind. rewrite readStore_spec.
  unfold lift. rewrite store_set_stored, writeStore_spec. reflexivity.
Qed.

Lemma peekCounter_spec cfg name w :
  peekCounter cfg name w
  = (Ok (current (stored cfg w) name), logged (read_event cfg) w).
Proof. unfold peekCounter, bind. rewrite readStore_spec. reflexivity. Qed.


Lemma current_empty name : current ∅ name = Int 0.
Proof.
  unfold current, store_get. simpl. unfold js_get. rewrite lookup_empty.
  destruct (inherited name); reflexivity.
Qed.

Lemma can_write_logged cfg e w : can_write cfg (logged e w) = can_write cfg w.
Proof. unfold can_write. destruct (useRedisClient cfg); reflexivity. Qed.

Lemma assigned_empty name :
  assigned ∅ name (Int 1) = Store (js_set ∅ name (VNum (Int 1))) None.
Proof. reflexivity. Qed.






(** *** Plain objects *)

Lemma js_set_other {A} (obj : gmap string A) name v other :
  other ≠ name → js_set obj name v !! other = obj !! other.
Proof.
  intros Hne. unfold js_set.
  destruct (obj !! name); [|destruct (String.eqb name "__proto__")];
    try reflexivity; apply lookup_insert_ne; congruence.
Qed.

Lemma js_set_own {A} (obj : gmap string A) name v :
  name ≠ "__proto__" → js_set obj name v !! name = Some v.
Proof.
  intros Hne. unfold js_set.
  destruct (obj !! name); [apply lookup_insert_eq|].
  destruct (String.eqb_spec name "__proto__");
    [contradiction|apply lookup_insert_eq].
Qed.

Lemma plain_own s : plain s → s = Store (own s) None.
Proof. destruct s as [m l]. unfold plain. simpl. intros ->. reflexivity. Qed.

Lemma assigned_plain s name n :
  plain s → assigned s name n = Store (js_set (own s) name (VNum n)) None.
Proof. intros Hp. unfold assigned, store_set. rewrite Hp. reflexivity. Qed.

Lemma current_object m name :
  current (Store m None) name
  = match js_get m name with
    | Own (VNum n) => if isFinite n then n else Int 0
    | _ => Int 0
    end.
Proof. reflexivity. Qed.

Lemma current_other m name v other :
  other ≠ name →
  current (Store (js_set m name v) None) other = current (Store m None) other.
Proof.
  intros Hne. rewrite !current_object. unfold js_get.
  rewrite js_set_other by exact Hne. reflexivity.
Qed.

Lemma isFinite_to_json v : to_json (to_json v) = to_json v.
Proof.
  destruct v as [| |n| |]; try reflexivity. simpl.
  destruct (isFinite n) eqn:Hn; simpl; rewrite ?Hn; reflexivity.
Qed.

Lemma current_to_json m name :
  current (Store (to_json <$> m) None) name = current (Store m None) name.
Proof.
  rewrite !current_object. unfold js_get. rewrite lookup_fmap.
  destruct (m !! name) as [[| |n| |]|]; try reflexivity. simpl.
  destruct (isFinite n) eqn:Hn; simpl; rewrite ?Hn; reflexivity.
Qed.

Lemma snapshot_plain s :
  plain s → snapshot (JSON_stringify s) = Store (to_json <$> own s) None.
Proof. intros Hp. unfold JSON_stringify. rewrite Hp. reflexivity. Qed.

Lemma too_long_plain s : plain s → too_long s = false.
Proof. intros Hp. unfold too_long. rewrite Hp. reflexivity. Qed.

Lemma stored_persist cfg s w :
  (useRedisClient cfg = true → redis_get_ok w = true) →
  stored cfg (persist cfg (JSON_stringify s) w) = snapshot (JSON_stringify s).
Proof.
  intros Hr. unfold stored, persist, stored_reply, JSON_stringify.
  destruct (useRedisClient cfg); simpl; [|reflexivity].
  rewrite Hr by reflexivity.
  destruct (array_length s); destruct (deserializes cfg); reflexivity.
Qed.

Lemma stored_logged cfg e w : stored cfg (logged e w) = stored cfg w.
Proof. reflexivity. Qed.

(** What a read finds after [writeStore] of a plain object. *)
Lemma stored_after_write cfg s w :
  plain s →
  stored cfg (after_write cfg s w)
  = if can_write cfg w && (negb (useRedisClient cfg) || redis_get_ok w)
    then Store (to_json <$> own s) None
    else stored cfg w.
Proof.
  intros Hp. unfold after_write. rewrite (too_long_plain s Hp).
  destruct (can_write cfg w) eqn:Hw; [|reflexivity]. simpl.
  destruct (useRedisClient cfg) eqn:Hc; simpl.
  - destruct (redis_get_ok w) eqn:Hg.
    + rewrite stored_persist by (intros _; exact Hg). apply snapshot_plain, Hp.
    + unfold stored, persist. rewrite Hc. simpl. rewrite Hg. reflexivity.
  - rewrite stored_persist by (rewrite Hc; discriminate).
    apply snapshot_plain, Hp.
Qed.

(** On an object, the counter of every other name reads the same after
    an increment, whether the write succeeded or not. *)
Lemma peek_after_increment cfg name other w :
  other ≠ name → plain (stored cfg w) →
  fst (peekCounter cfg other (snd (getAndIncrementCounter cfg name w)))
  = fst (peekCounter cfg other w).
Proof.
  intros Hne Hp.
  rewrite getAndIncrementCounter_spec, !peekCounter_spec. cbn [fst snd].
  f_equal. rewrite (assigned_plain _ _ _ Hp).
  rewrite stored_after_write by reflexivity. rewrite stored_logged.
  destruct (_ && _); [|reflexivity]. cbn [own].
  rewrite current_to_json, current_other by exact Hne.
  rewrite <- (plain_own _ Hp). reflexivity.
Qed.

(** *** Arrays *)

Lemma index_key_inj i j : index_key i = index_key j → i = j.
Proof.
  unfold index_key. intros H.
  apply DecimalN.Unsigned.to_uint_inj.
  assert (Hi : N.to_uint i ≠ Decimal.Nil)
    by (destruct i; [discriminate|apply DecimalPos.Unsigned.to_uint_nonnil]).
  assert (Hj : N.to_uint j ≠ Decimal.Nil)
    by (destruct j; [discriminate|apply DecimalPos.Unsigned.to_uint_nonnil]).
  pose proof (NilZero.usu _ Hi) as Ei. pose proof (NilZero.usu _ Hj) as Ej.
  rewrite H in Ei. congruence.
Qed.

Lemma is_index_key i : (i < 2 ^ 32 - 1)%N → is_index (index_key i) = Some i.
Proof.
  intros Hi. unfold is_index, index_key.
  assert (Hn : N.to_uint i ≠ Decimal.Nil)
    by (destruct i; [discriminate|apply DecimalPos.Unsigned.to_uint_nonnil]).
  rewrite (NilZero.usu _ Hn). cbv zeta.
  rewrite DecimalN.Unsigned.of_to, String.eqb_refl.
  destruct (N.ltb_spec i (2 ^ 32 - 1)); [reflexivity|lia].
Qed.

Lemma elements_ext s s' len :
  (∀ i, (i < len)%N → own s' !! index_key i = own s !! index_key i) →
  elements s' len = elements s len.
Proof.
  intros Hsame. unfold elements. apply map_ext_in. intros i Hi.
  apply in_seq in Hi. rewrite (Hsame (N.of_nat i)) by lia. reflexivity.
Qed.

(** On an array, a name that is neither an index nor [length] becomes a
    property that [JSON.stringify] leaves out. *)
Lemma array_drops_names s len name n :
  array_length s = Some len → Z.of_N len < maxElements →
  is_index name = None → name ≠ "length" →
  JSON_stringify (assigned s name n) = JSON_stringify s.
Proof.
  intros Hs Hlen Hidx Hname. unfold assigned, store_set. rewrite Hs.
  destruct (String.eqb_spec name "length"); [contradiction|]. rewrite Hidx.
  unfold JSON_stringify. cbn [array_length]. rewrite Hs. do 2 f_equal.
  apply elements_ext. intros i Hi. cbn [own].
  apply js_set_other. intros Heq. rewrite <- Heq in Hidx.
  rewrite is_index_key in Hidx; [discriminate|].
  unfold maxElements in Hlen. lia.
Qed.

Lemma array_grows s len name n :
  array_length s = Some len →
  (∀ i, is_index name = Some i → name ≠ "length" →
        array_length (assigned s name n) = Some (N.max len (i + 1))) ∧
  (Z.of_N len < maxElements →
   array_length (assigned s "length" (add1 (Int (Z.of_N len))))
   = Some (len + 1)%N).
Proof.
  intros Hs. split.
  - intros i Hi Hname. unfold assigned, store_set. rewrite Hs.
    destruct (String.eqb_spec name "length"); [contradiction|].
    rewrite Hi. reflexivity.
  - intros Hlen. unfold maxElements in Hlen. unfold assigned, store_set.
    rewrite Hs, String.eqb_refl, add1_safe by lia.
    unfold as_array_length.
    destruct (Z.leb_spec 0 (Z.of_N len + 1)); [|lia].
    destruct (Z.ltb_spec (Z.of_N len + 1) (2 ^ 32)); [|lia].
    cbn [andb array_length]. f_equal. lia.
Qed.

(** Claim C10, as stated, fails on a snapshot that is an array.  With the
    empty array in the counters file, the increment of the name [5]
    writes back the array [[null, null, null, null, null, 1]]: the
    entries at the indices 0 to 4 are added, and the counter of the
    other name [length] changes from 0 to 6. *)
Lemma C10_array_snapshot_grows :
  ¬ frame_as_stated file_config "5" empty_array_world ∧
  JSON_stringify (stored file_config empty_array_world)
  = WellFormed (PArray []) ∧
  JSON_stringify (handed_over file_config "5" empty_array_world)
  = WellFormed (PArray [VNull; VNull; VNull; VNull; VNull; VNum (Int 1)]) ∧
  is_Some (written_back file_config "5" empty_array_world !! "0") ∧
  stored file_config empty_array_world !! "0" = None ∧
  current (stored file_config empty_array_world) "length" = Int 0 ∧
  current (written_back file_config "5" empty_array_world) "length" = Int 6.
Proof.
  split; [|repeat split; try (vm_compute; reflexivity)].
  - intros Hframe. destruct (Hframe "length") as [Hcount _]; [discriminate|].
    vm_compute in Hcount. discriminate.
  - exists VNull. vm_compute. reflexivity.
Qed.

(** Claim C10, amended.  [getAndIncrementCounter] reads a snapshot,
    assigns the new value to the entry of the name, which never throws,
    and hands the result to [writeStore].  When the snapshot is an
    object, so is what is handed over, the one write of the call carries
    its text, and for every other name: the entry (or the absence of one)
    and the counter value are the same in the snapshot read, in the
    snapshot handed over and in the snapshot written back, and a later
    peek returns what it returned before the call.  When the snapshot is
    an array of some length, an index key extends the array to that index
    (the holes are written as null), the name [length] extends it by one,
    and for any other name the text written is the text of the array that
    was read. *)
Theorem C10_increment_frame cfg name w :
  ∃ store w1 nextValue written w2,
    readStore cfg w = (Ok store, w1) ∧
    nextValue = add1 (current store name) ∧
    store_set store name nextValue = Ok written ∧
    writeStore cfg written w1 = (Ok tt, w2) ∧
    getAndIncrementCounter cfg name w = (Ok nextValue, w2) ∧
    (plain store →
       plain written ∧
       trace w2 = (trace w1 ++ [write_event cfg (JSON_stringify written)])%list ∧
       ∀ other, other ≠ name →
         written !! other = store !! other ∧
         current written other = current store other ∧
         current (written_back cfg name w) other = current store other ∧
         (is_Some (written_back cfg name w !! other) ↔ is_Some (store !! other)) ∧
         fst (peekCounter cfg other w2) = fst (peekCounter cfg other w)) ∧
    (∀ len, array_length store = Some len →
       (∀ i, is_index name = Some i → name ≠ "length" →
             array_length written = Some (N.max len (i + 1))) ∧
       (name = "length" → array_length written = Some (len + 1)%N) ∧
       (is_index name = None → name ≠ "length" →
        JSON_stringify written = JSON_stringify store)).
Proof.
  exists (stored cfg w), (logged (read_event cfg) w),
    (add1 (current (stored cfg w) name)),
    (assigned (stored cfg w) name (add1 (current (stored cfg w) name))).
  eexists.
  split; [apply readStore_spec|]. split; [reflexivity|].
  split; [apply store_set_stored|].
  split; [apply writeStore_spec|].
  split; [apply getAndIncrementCounter_spec|].
  split.
  - intros Hp.
    pose proof (assigned_plain (stored cfg w) name
                  (add1 (current (stored cfg w) name)) Hp) as Hwritten.
    split; [rewrite Hwritten; reflexivity|]. split.
    + unfold after_write. rewrite Hwritten at 1.
      rewrite too_long_plain by reflexivity.
      destruct (can_write cfg _); unfold persist;
        destruct (useRedisClient cfg); reflexivity.
    + intros other Hne.
      unfold written_back, handed_over. rewrite Hwritten.
      rewrite snapshot_plain by reflexivity. cbn [own].
      unfold lookup at 1 2 3 4, store_lookup. cbn [own].
      rewrite lookup_fmap, !js_set_other by exact Hne.
      rewrite current_to_json, current_other by exact Hne.
      rewrite <- (plain_own _ Hp).
      split; [reflexivity|]. split; [reflexivity|]. split; [reflexivity|].
      split; [apply fmap_is_Some|].
      rewrite <- (peek_after_increment cfg name other w Hne Hp).
      rewrite getAndIncrementCounter_spec, Hwritten. reflexivity.
  - intros len Hs.
    pose proof (stored_bounded cfg w len Hs) as Hlen.
    split; [|split].
    + intros i Hi Hname. apply (proj1 (array_grows _ len name _ Hs) i Hi Hname).
    + intros ->. rewrite (current_length _ len Hs Hlen).
      apply (proj2 (array_grows _ len "length" (Int 0) Hs) Hlen).
    + intros Hidx Hname. apply array_drops_names with (len := len); assumption.
Qed.

(** *** Counting *)

(** Without an own property [__proto__] in the store, an increment of that
    name returns 1 and leaves the store without one. *)
Lemma proto_never_counts cfg w :
  plain (stored cfg w) → stored cfg w !! "__proto__" = None →
  ∃ w', getAndIncrementCounter cfg "__proto__" w = (Ok (Int 1), w') ∧
        plain (stored cfg w') ∧ stored cfg w' !! "__proto__" = None.
Proof.
  intros Hp Hnone. rewrite getAndIncrementCounter_spec.
  assert (Hcur : current (stored cfg w) "__proto__" = Int 0).
  { unfold current, store_get, js_get. rewrite Hp.
    unfold lookup, store_lookup in Hnone. rewrite Hnone. reflexivity. }
  rewrite Hcur. change (add1 (Int 0)) with (Int 1).
  eexists; split; [reflexivity|].
  rewrite assigned_plain by exact Hp.
  rewrite stored_after_write by reflexivity. rewrite stored_logged.
  destruct (_ && _); [|split; assumption].
  split; [reflexivity|].
  unfold lookup, store_lookup in *. cbn [own].
  rewrite lookup_fmap. unfold js_set. rewrite Hnone. simpl. rewrite Hnone.
  reflexivity.
Qed.

Lemma proto_increments cfg n : ∀ w,
  plain (stored cfg w) → stored cfg w !! "__proto__" = None →
  fst (increments cfg "__proto__" n w) = Ok (repeat (Int 1) n).
Proof.
  induction n as [|n IH]; intros w Hp Hnone; [reflexivity|].
  destruct (proto_never_counts cfg w Hp Hnone) as (w' & Hcall & Hp' & Hnone').
  simpl. unfold bind at 1. rewrite Hcall. unfold bind.
  specialize (IH w' Hp' Hnone').
  destruct (increments cfg "__proto__" n w') as [[vs|err] w'']; simpl in *;
    [|discriminate].
  injection IH as ->. reflexivity.
Qed.

(** Claim C3, at the name [__proto__].  From the empty store, on either
    backend and with every write succeeding, [n] calls of
    [getAndIncrementCounter] for the name [__proto__] return 1 each time
    and not 1, 2, ..., n: reading [store[name]] yields the prototype of the
    snapshot, which is no number, and the assignment [store[name] =
    nextValue] runs the inherited setter, which drops the number, so that
    the snapshot written back has no entry for the name. *)
Theorem C3_proto_name_never_counts cfg n :
  stored cfg fresh_world = ∅ ∧
  store_ready cfg fresh_world ∧
  fst (increments cfg "__proto__" n fresh_world) = Ok (repeat (Int 1) n) ∧
  fst (increments cfg "__proto__" 3 fresh_world) = Ok [Int 1; Int 1; Int 1].
Proof.
  assert (He : stored cfg fresh_world = ∅)
    by (unfold stored; destruct (useRedisClient cfg); reflexivity).
  split; [exact He|].
  split; [split; [unfold can_write; destruct (useRedisClient cfg)|]; reflexivity|].
  split; apply proto_increments; rewrite He; reflexivity.
Qed.

(** The count after [k] further views: binary64 counts up to 2^53 and
    stays there. *)
Lemma add1_count z :
  - 2 ^ 53 <= z <= 2 ^ 53 → add1 (Int z) = Int (Z.min (z + 1) (2 ^ 53)).
Proof.
  intros Hz. destruct (Z.eq_dec z (2 ^ 53)) as [->|Hne]; [reflexivity|].
  rewrite add1_safe by lia. f_equal. lia.
Qed.

Lemma increment_step cfg name w z :
  name ≠ "__proto__" → store_ready cfg w → plain (stored cfg w) →
  current (stored cfg w) name = Int z → - 2 ^ 53 <= z <= 2 ^ 53 →
  ∃ w', getAndIncrementCounter cfg name w
          = (Ok (Int (Z.min (z + 1) (2 ^ 53))), w') ∧
        current (stored cfg w') name = Int (Z.min (z + 1) (2 ^ 53)) ∧
        store_ready cfg w' ∧ plain (stored cfg w').
Proof.
  intros Hne [Hw Hr] Hp Hcur Hz. rewrite getAndIncrementCounter_spec, Hcur.
  rewrite add1_count by exact Hz.
  eexists; split; [reflexivity|].
  rewrite assigned_plain by exact Hp.
  rewrite stored_after_write by reflexivity.
  rewrite can_write_logged, Hw.
  replace (negb (useRedisClient cfg) || redis_get_ok (logged (read_event cfg) w))
    with true
    by (destruct (useRedisClient cfg); [symmetry; apply Hr|]; reflexivity).
  cbn [andb own]. split; [|split].
  - rewrite current_object. unfold js_get.
    rewrite lookup_fmap, js_set_own by exact Hne. cbn [fmap option_fmap option_map to_json].
    rewrite isFinite_safe; [cbn [to_json]; rewrite isFinite_safe|];
      try reflexivity; unfold safe; apply andb_true_iff;
      split; apply Z.leb_le; lia.
  - unfold after_write. rewrite too_long_plain by reflexivity.
    rewrite can_write_logged, Hw.
    unfold store_ready, can_write, persist, logged in *.
    destruct (useRedisClient cfg); simpl in *; auto.
  - reflexivity.
Qed.

Lemma increments_count cfg name n : ∀ w z,
  name ≠ "__proto__" → store_ready cfg w → plain (stored cfg w) →
  current (stored cfg w) name = Int z → 0 <= z <= 2 ^ 53 →
  fst (increments cfg name n w)
  = Ok (map (fun i => Int (Z.min (z + Z.of_nat i) (2 ^ 53))) (seq 1 n)).
Proof.
  induction n as [|n IH]; intros w z Hne Hready Hp Hcur Hz; [reflexivity|].
  destruct (increment_step cfg name w z Hne Hready Hp Hcur)
    as (w' & Hcall & Hcur' & Hready' & Hp'); [lia|].
  simpl increments. unfold bind at 1. rewrite Hcall. unfold bind.
  specialize (IH w' _ Hne Hready' Hp' Hcur').
  destruct (increments cfg name n w') as [[vs|err] w'']; simpl in *;
    [|discriminate IH; lia].
  assert (Hvs : Ok vs = Ok (map (fun i => Int (Z.min (Z.min (z + 1) (2 ^ 53)
                                                    + Z.of_nat i) (2 ^ 53)))
                                (seq 1 n)) :> result (list jsnum))
    by (apply IH; lia).
  injection Hvs as ->. f_equal.
  change (seq 1 (S n)) with (1%nat :: seq 2 n). cbn [map].
  f_equal; [f_equal; lia..|].
  rewrite <- (seq_shift n 1), map_map. apply map_ext. intros i.
  f_equal. lia.
Qed.

(** For every name other than [__proto__]: from an empty store, with
    every write succeeding and the service answering, [n] calls in a row
    return 1, 2, ..., n for every [n] up to 2^53; beyond, binary64 counts
    no further, and every later call returns 2^53. *)
Theorem sequential_increments cfg name n w :
  name ≠ "__proto__" → stored cfg w = ∅ → store_ready cfg w →
  fst (increments cfg name n w)
  = Ok (map (fun k => Int (Z.min (Z.of_nat k) (2 ^ 53))) (seq 1 n)) ∧
  (Z.of_nat n <= 2 ^ 53 →
   fst (increments cfg name n w) = Ok (map (fun k => Int (Z.of_nat k)) (seq 1 n))).
Proof.
  intros Hne He Hready.
  assert (Hall : fst (increments cfg name n w)
                 = Ok (map (fun k => Int (Z.min (Z.of_nat k) (2 ^ 53))) (seq 1 n))).
  { rewrite (increments_count cfg name n w 0); try assumption.
    - reflexivity.
    - rewrite He. reflexivity.
    - rewrite He. apply current_empty.
    - lia. }
  split; [exact Hall|].
  intros Hn. rewrite Hall. f_equal. apply map_ext_in.
  intros k Hk. apply in_seq in Hk. f_equal. lia.
Qed.

Lemma sequential_increments_witness :
  fst (increments file_config "mason" 4 fresh_world)
  = Ok [Int 1; Int 2; Int 3; Int 4].
Proof.
  destruct (sequential_increments file_config "mason" 4 fresh_world)
    as [_ Hcount].
  - discriminate.
  - reflexivity.
  - split; [reflexivity|discriminate].
  - apply Hcount. lia.
Defined.
(** ** The asset cache *)

Lemma imageToDataUri_asset cfg c w :
  imageToDataUri cfg (Asset c) w =
    match imageDataUriCache w !! asset_path c with
    | Some dataUri => (Ok (DataUri dataUri), w)
    | None =>
        let w' := with_trace (trace w ++ load_events cfg c w) w in
        match loaded cfg c w with
        | Some bytes =>
            (Ok (DataUri (dataUriOf c bytes)),
             with_cache (<[asset_path c := dataUriOf c bytes]> (imageDataUriCache w))
                        w')
        | None => (Ok (Plain (Asset c)), w')
        end
    end.
Proof.
  unfold imageToDataUri, cache_get, bind at 1.
  destruct (imageDataUriCache w !! asset_path c) as [uri|] eqn:Hc; [reflexivity|].
  unfold loaded, load_events, sharp_toBuffer, fs_readFileSync, cache_set, dataUriOf.
  unfold try_catch, bind, emit, ret.
  fold (fullPathOf cfg c).
  destruct (sharp cfg) as [transform|]; simpl.
  - destruct (asset_files w !! fullPathOf cfg c) as [bytes|] eqn:Hf; simpl.
    + destruct (transform bytes); simpl; rewrite ?Hf, <- ?app_assoc; reflexivity.
    + rewrite Hf, <- app_assoc. reflexivity.
  - destruct (asset_files w !! fullPathOf cfg c) as [bytes|]; reflexivity.
Qed.

Lemma reads_of_app p t ev :
  reads_of p (t ++ ev) = (reads_of p t + reads_of p ev)%nat.
Proof. unfold reads_of. rewrite List.filter_app, length_app. reflexivity. Qed.

Lemma transforms_of_app p t ev :
  transforms_of p (t ++ ev) = (transforms_of p t + transforms_of p ev)%nat.
Proof. unfold transforms_of. rewrite List.filter_app, length_app. reflexivity. Qed.

Lemma load_events_once cfg c w p :
  (reads_of p (load_events cfg c w) <= 1)%nat ∧
  (transforms_of p (load_events cfg c w) <= 1)%nat.
Proof.
  unfold reads_of, transforms_of. case_load cfg; simpl;
    destruct (String.eqb _ p); simpl; lia.
Qed.

Lemma load_events_nonempty cfg c w : load_events cfg c w ≠ [].
Proof. case_load cfg; discriminate. Qed.

Lemma store_events_load cfg c w t :
  store_events (t ++ load_events cfg c w) = store_events t.
Proof.
  unfold store_events. rewrite List.filter_app.
  replace (List.filter is_store_event (load_events cfg c w)) with (@nil event);
    [apply app_nil_r|].
  case_load cfg; reflexivity.
Qed.

(** Claim C5, as the specification states it, fails: with no file for the
    image of Stan in the asset folder, the first call reads the file in
    vain, memoizes nothing, and the second call reads it again. *)
Lemma C5_failed_load_runs_again : ¬ memoized file_config (Asset Stan) fresh_world.
Proof.
  intros [_ Hcount]. destruct (Hcount "/srv/assets/stan.png") as [Hreads _].
  vm_compute in Hreads. lia.
Qed.

(** Claim C5, amended.  Two calls in a row for the same image return the
    same.  When the first returns an encoded payload, the second is a pure
    cache hit (the world is left as it was) and over both calls the file
    was read at most once and transformed at most once.  When the load
    fails, the first call returns the unencoded path and memoizes nothing,
    and the second call makes the calls of the first once more. *)
Theorem C5_memoized_once_loaded cfg img w :
  let first := imageToDataUri cfg img w in
  let second := imageToDataUri cfg img (snd first) in
  fst first = fst second ∧
  (∀ dataUri, fst first = Ok (DataUri dataUri) →
     snd second = snd first ∧
     ∀ fullPath,
       (reads_of fullPath (trace (snd second))
        <= reads_of fullPath (trace w) + 1)%nat ∧
       (transforms_of fullPath (trace (snd second))
        <= transforms_of fullPath (trace w) + 1)%nat) ∧
  (∀ c, fst first = Ok (Plain (Asset c)) →
     imageDataUriCache (snd first) = imageDataUriCache w ∧
     load_events cfg c w ≠ [] ∧
     trace (snd first) = (trace w ++ load_events cfg c w)%list ∧
     trace (snd second) = (trace (snd first) ++ load_events cfg c w)%list).
Proof.
  destruct img as [c|name]; [|repeat split; discriminate].
  cbv zeta. rewrite imageToDataUri_asset.
  destruct (imageDataUriCache w !! asset_path c) as [uri|] eqn:Hcache.
  - (* a cache hit *)
    cbn [fst snd]. rewrite imageToDataUri_asset, Hcache. cbn [fst snd].
    repeat split; try discriminate; lia.
  - cbv zeta. destruct (loaded cfg c w) as [bytes|] eqn:Hload.
    + (* the load succeeds and is memoized *)
      cbn [fst snd]. rewrite imageToDataUri_asset. simpl imageDataUriCache.
      rewrite lookup_insert_eq.
      split; [reflexivity|]. split; [|discriminate].
      intros dataUri _. split; [reflexivity|]. intros p. simpl.
      rewrite reads_of_app, transforms_of_app.
      pose proof (load_events_once cfg c w p). lia.
    + (* the load fails: nothing is memoized *)
      cbn [fst snd]. rewrite imageToDataUri_asset. simpl imageDataUriCache.
      rewrite Hcache. cbv zeta.
      replace (loaded cfg c (with_trace _ w)) with (loaded cfg c w) by reflexivity.
      rewrite Hload.
      split; [reflexivity|]. split; [discriminate|].
      intros c' Hc'. injection Hc' as <-.
      split; [reflexivity|]. split; [apply load_events_nonempty|].
      split; reflexivity.
Qed.

Lemma C5_memoized_once_loaded_witness :
  fst (imageToDataUri file_config (Asset Stan) stan_world)
    = Ok (DataUri "data:image/png;base64,iVBORw==") ∧
  imageToDataUri file_config (Asset Stan)
      (snd (imageToDataUri file_config (Asset Stan) stan_world))
    = (Ok (DataUri "data:image/png;base64,iVBORw=="),
       snd (imageToDataUri file_config (Asset Stan) stan_world)).
Proof.
  pose proof (C5_memoized_once_loaded file_config (Asset Stan) stan_world) as H.
  cbv zeta in H. destruct H as (Hsame & Hhit & _).
  assert (Hfirst : fst (imageToDataUri file_config (Asset Stan) stan_world)
                   = Ok (DataUri "data:image/png;base64,iVBORw=="))
    by reflexivity.
  split; [exact Hfirst|].
  destruct (Hhit _ Hfirst) as [Hw _].
  rewrite <- Hfirst at 1. rewrite Hsame, <- Hw. apply surjective_pairing.
Defined.

(** ** The request handler *)

Lemma same_store_refl w : same_store w w.
Proof. repeat split. Qed.

Lemma same_store_trans w1 w2 w3 :
  same_store w1 w2 → same_store w2 w3 → same_store w1 w3.
Proof. intros [(?&?&?) ?] [(?&?&?) ?]. repeat split; congruence. Qed.

Lemma stored_unchanged cfg w w' :
  store_unchanged w w' → stored cfg w' = stored cfg w.
Proof. intros (Hf & Hr & Hg). unfold stored. rewrite Hf, Hr, Hg. reflexivity. Qed.

Lemma imageToDataUri_store cfg img w :
  ∃ r w', imageToDataUri cfg img w = (Ok r, w') ∧ same_store w w'.
Proof.
  destruct img as [c|name];
    [|do 2 eexists; split; [reflexivity|apply same_store_refl]].
  rewrite imageToDataUri_asset.
  destruct (imageDataUriCache w !! asset_path c);
    [do 2 eexists; split; [reflexivity|apply same_store_refl]|].
  cbv zeta. destruct (loaded cfg c w); do 2 eexists; (split; [reflexivity|]).
  all: repeat split; simpl; apply store_events_load.
Qed.

Lemma loadImages_store cfg imagesToLoad : ∀ w,
  ∃ w', loadImages cfg imagesToLoad w = (Ok tt, w') ∧ same_store w w'.
Proof.
  induction imagesToLoad as [|img rest IH]; intros w.
  - exists w. split; [reflexivity|apply same_store_refl].
  - cbn [loadImages]. unfold bind at 1, bind at 1, cache_has.
    destruct (imageToDataUri_store cfg img w) as (r & w1 & Hload & Hsame).
    match goal with |- context [if ?b then _ else _] => destruct b end.
    + unfold ret at 1. apply IH.
    + unfold try_catch, bind at 1. rewrite Hload. unfold ret at 1.
      destruct (IH w1) as (w' & Hrest & Hsame'). exists w'.
      split; [exact Hrest|eapply same_store_trans; eassumption].
Qed.

(** Claim C1, as the specification states it, fails: after the request
    [/@mason?num=5] on a store that counts 41 views of "mason", the
    persisted counter is still 41 and not 42. *)
Lemma C1_override_leaves_counter :
  ¬ counted_under_override file_config "mason" override_query counted_world.
Proof.
  intros [Hinc _]. specialize (Hinc eq_refl).
  vm_compute in Hinc. discriminate.
Qed.

(** Claim C1, amended.  For every request with a well-formed name whose
    query carries [num > 0], the display string is the prefix followed by
    [num], zero padded, and the store is left alone: its content is
    unchanged, so that every counter has the value it had, and the request
    neither reads nor writes it, whatever [inc] is. *)
Theorem C1_override_skips_the_store cfg name q w :
  name ≠ "" → (String.length name <= 128)%nat → q_num q > 0 →
  ∃ d w', handle cfg name q w = (Ok (Image d), w') ∧
          displayStr d
          = q_prefix q ++ padStart (String_of (Int (q_num q))) (q_padding q) "0" ∧
          same_store w w' ∧
          stored cfg w' = stored cfg w.
Proof.
  intros Hname Hlen Hnum. unfold handle.
  destruct (String.eqb_spec name ""); [contradiction|].
  destruct (Nat.ltb_spec 128 (String.length name)); [lia|]. cbn [orb].
  replace (negb (q_num q =? 0) && (q_num q >? 0)) with true
    by (symmetry; apply andb_true_iff; split; [apply negb_true_iff|]; lia).
  unfold bind at 1, ret at 1. unfold bind.
  match goal with |- context [loadImages cfg ?l w] =>
    destruct (loadImages_store cfg l w) as (w' & Hload & Hsame); rewrite Hload
  end.
  do 2 eexists. split; [reflexivity|]. split; [reflexivity|].
  split; [exact Hsame|apply stored_unchanged, Hsame].
Qed.

Lemma C1_override_skips_the_store_witness :
  ∃ d w', handle file_config "mason" override_query counted_world
            = (Ok (Image d), w') ∧
          displayStr d = "" ++ padStart (String_of (Int 5)) 7 "0" ∧
          same_store counted_world w' ∧
          stored file_config w' = stored file_config counted_world.
Proof.
  apply (C1_override_skips_the_store file_config "mason" override_query
           counted_world).
  - discriminate.
  - simpl. lia.
  - reflexivity.
Defined.

(** ** The character order *)

(** Claim C6, at the order string [constructor].  None of its keys is a
    glyph identifier, yet [parseOrder] does not return [null]:
    [characterKeyToPath[key]] evaluates to the inherited
    [Object.prototype.constructor], which is truthy, and the handler and
    the renderer take this one-element array as the character order
    instead of the default sequence.  Every glyph of the image then refers
    to that function, written with [String], where an image path should
    be. *)
Theorem C6_inherited_key_replaces_default :
  valid_keys "constructor" = [] ∧
  parseOrder "constructor" = Some [Member "constructor"] ∧
  ∃ d w', handle file_config "mason" constructor_query fresh_world
            = (Ok (Image d), w') ∧
          map g_image (glyphs d) = repeat (Some (Member "constructor")) 7 ∧
          map g_href (glyphs d) = repeat (Some (Plain (Member "constructor"))) 7 ∧
          map g_image (glyphs d) ≠ map Some defaultCharacterImages.
Proof.
  split; [reflexivity|]. split; [reflexivity|].
  do 2 eexists. split; [vm_compute; reflexivity|].
  split; [reflexivity|]. split; [reflexivity|]. discriminate.
Qed.

Lemma place_images cache imgs y chars : ∀ idx x,
  Forall (fun g => ∃ i, g_image g = imageAt imgs i)
         (place cache chars idx imgs y x).
Proof.
  induction chars as [|c chars IH]; intros idx x; simpl; constructor; eauto.
Qed.

Lemma imagesOf_never_empty order : imagesOf order ≠ [].
Proof. destruct order; discriminate. Qed.

Lemma imagesOf_nonempty order : order ≠ [] → imagesOf order = order.
Proof. destruct order; [contradiction|reflexivity]. Qed.

Lemma imageAt_some imgs idx : imgs ≠ [] → is_Some (imageAt imgs idx).
Proof.
  intros Hne. unfold imageAt. apply lookup_lt_is_Some.
  apply Nat.mod_upper_bound. destruct imgs; [contradiction|discriminate].
Qed.

(** Whatever character order the renderer is given, the sequence it
    selects from is not empty, so that the index modulo its length is
    taken modulo a positive number and every glyph gets an element of the
    sequence. *)
Theorem glyph_selection_never_empty cache c :
  imagesOf (characterOrder c) ≠ [] ∧
  (0 < length (imagesOf (characterOrder c)))%nat ∧
  Forall (fun g => is_Some (g_image g)) (glyphs (renderSouthParkCounter cache c)).
Proof.
  pose proof (imagesOf_never_empty (characterOrder c)) as Hne.
  split; [exact Hne|].
  split; [destruct (imagesOf _); [contradiction|simpl; lia]|].
  simpl glyphs. eapply Forall_impl; [apply place_images|].
  intros g [i ->]. apply imageAt_some, Hne.
Qed.

Lemma resolve_none keys : ∀ seen resolved,
  Forall (fun rawKey => path_of_key (dash_spaces false rawKey) = None) keys →
  resolve keys seen resolved = resolved.
Proof.
  induction keys as [|k keys IH]; intros seen resolved Hall; [reflexivity|].
  inversion Hall as [|? ? Hk Hrest]; subst. simpl. rewrite Hk. apply IH, Hrest.
Qed.

Lemma path_of_key_none key :
  ¬ In key glyph_identifiers → inherited key = false → path_of_key key = None.
Proof.
  intros Hnot Hinh. unfold path_of_key, js_get.
  assert (Hl : characterKeyToPath !! key = None).
  { apply not_elem_of_list_to_map_1. rewrite list_elem_of_In. exact Hnot. }
  rewrite Hl, Hinh. reflexivity.
Qed.

(** An order string none of whose keys is a glyph identifier or the name
    of a member of [Object.prototype] resolves to nothing: [parseOrder]
    returns [null] and the handler takes the default sequence. *)
Theorem unknown_order_falls_back orderStr :
  Forall (fun key => ¬ In key glyph_identifiers ∧ inherited key = false)
         (normalized_keys orderStr) →
  parseOrder orderStr = None.
Proof.
  intros Hall. unfold parseOrder.
  destruct (String.eqb orderStr ""); [reflexivity|].
  rewrite resolve_none; [reflexivity|].
  unfold normalized_keys in Hall. rewrite Forall_map in Hall.
  eapply Forall_impl; [exact Hall|].
  intros k [Hnot Hinh]. apply path_of_key_none; assumption.
Qed.

Lemma unknown_order_falls_back_witness : parseOrder "Butters, chef ,," = None.
Proof.
  apply unknown_order_falls_back. vm_compute.
  repeat constructor; intuition discriminate.
Defined.

(** ** The layout *)

Lemma filler_zero n : filler "0" n "" = zeros n ∧ filler "0" n "0" = zeros n.
Proof.
  induction n as [|n [IH _]]; [split; reflexivity|].
  split; simpl; rewrite IH; reflexivity.
Qed.

Lemma padStart_zero s padding : padStart s padding "0" = zero_padded s padding.
Proof.
  unfold padStart, zero_padded.
  destruct (Nat.leb_spec padding (String.length s)) as [Hle|Hlt].
  - replace (padding - String.length s)%nat with 0%nat by lia. reflexivity.
  - simpl. rewrite (proj2 (filler_zero _)). reflexivity.
Qed.

Lemma length_append (a b : string) :
  String.length (a ++ b) = (String.length a + String.length b)%nat.
Proof.
  induction a as [|c a IH]; simpl; [reflexivity|]. rewrite IH. reflexivity.
Qed.

Lemma length_zeros n : String.length (zeros n) = n.
Proof.
  induction n as [|n IH]; simpl; [reflexivity|].
  unfold zeros in IH. rewrite IH. reflexivity.
Qed.

Lemma length_zero_padded digits padding :
  String.length (zero_padded digits padding)
  = Nat.max padding (String.length digits).
Proof. unfold zero_padded. rewrite length_append, length_zeros. lia. Qed.

(** The digits of a safe integer are its decimal: they are read back as
    the integer, digit by digit. *)
Lemma String_of_safe z :
  safe z = true →
  String_of (Int z) = digits z ∧
  NilZero.int_of_string (String_of (Int z)) = Some (Z.to_int z) ∧
  Z.of_int (Z.to_int z) = z.
Proof.
  intros Hz. unfold String_of. rewrite Hz. split; [reflexivity|].
  split; [|apply DecimalZ.of_to].
  unfold digits. apply NilZero.isi.
  - destruct z as [|p|p]; [discriminate| |discriminate].
    simpl. intros [= H]. exact (DecimalPos.Unsigned.to_uint_nonnil p H).
  - destruct z as [|p|p]; [discriminate|discriminate|].
    simpl. intros [= H]. exact (DecimalPos.Unsigned.to_uint_nonnil p H).
Qed.

(** Claim C7, as the specification states it, fails: the value 10^21 is
    not rendered with its decimal digits.  [String] writes it as [1e+21],
    and with the padding 7 the display string is [001e+21]. *)
Lemma C7_exponent_notation :
  ¬ padded_as_stated large_number ∧
  displayStr (renderSouthParkCounter ∅ large_number) = "001e+21" ∧
  decimal (10 ^ 21) = "1000000000000000000000".
Proof.
  split; [|split; vm_compute; reflexivity].
  intros H. specialize (H (10 ^ 21) eq_refl).
  vm_compute in H. discriminate.
Qed.

(** Claim C7, amended.  For every padding and prefix, the display string
    is the prefix followed by [String(value)] with leading ['0']
    characters up to [padding] characters; the padded part is as long as
    the larger of [padding] and the length of [String(value)], which is
    rendered in full when it fills the padding.  For every integer value
    from -2^53 to 2^53, [String(value)] is the decimal of the value: its
    digits, read as a decimal number, give the value back.  So 5 padded
    to 7 is "0000005", 12345678 padded to 3 is "12345678", and the
    prefix "SP-" with 42 padded to 4 gives "SP-0042". *)
Theorem C7_display_string_zero_padded cache c :
  displayStr (renderSouthParkCounter cache c)
    = prefix c ++ zero_padded (String_of (value c)) (padding c) ∧
  String.length (zero_padded (String_of (value c)) (padding c))
    = Nat.max (padding c) (String.length (String_of (value c))) ∧
  ((padding c <= String.length (String_of (value c)))%nat →
     displayStr (renderSouthParkCounter cache c)
     = prefix c ++ String_of (value c)) ∧
  (∀ z, value c = Int z → - 2 ^ 53 <= z <= 2 ^ 53 →
     displayStr (renderSouthParkCounter cache c)
     = prefix c ++ zero_padded (decimal z) (padding c) ∧
     NilZero.int_of_string (decimal z) = Some (Z.to_int z) ∧
     Z.of_int (Z.to_int z) = z) ∧
  displayString "" (Int 5) 7 = "0000005" ∧
  displayString "" (Int 12345678) 3 = "12345678" ∧
  displayString "SP-" (Int 42) 4 = "SP-0042".
Proof.
  assert (Hd : displayStr (renderSouthParkCounter cache c)
               = prefix c ++ zero_padded (String_of (value c)) (padding c))
    by (simpl; unfold displayString; rewrite padStart_zero; reflexivity).
  split; [exact Hd|]. split; [apply length_zero_padded|].
  split; [|split; [|repeat split; reflexivity]].
  - intros Hle. rewrite Hd. unfold zero_padded.
    replace (padding c - _)%nat with 0%nat by lia. reflexivity.
  - intros z Hv Hz. rewrite Hd, Hv.
    assert (Hsafe : safe z = true)
      by (unfold safe; apply andb_true_iff; split; apply Z.leb_le; lia).
    destruct (String_of_safe z Hsafe) as (Hs & Hparse & Hback).
    rewrite Hs in *. unfold decimal, digits in *. auto.
Qed.

Lemma place_lookup cache imgs y chars : ∀ idx x i ch,
  chars !! i = Some ch →
  ∃ g, place cache chars idx imgs y x !! i = Some g ∧
       g_char g = ch ∧ g_image g = imageAt imgs (idx + i).
Proof.
  induction chars as [|c chars IH]; intros idx x i ch Hi; [discriminate|].
  destruct i as [|i]; simpl in *.
  - injection Hi as <-. eexists. split; [reflexivity|].
    split; [reflexivity|]. simpl. rewrite Nat.add_0_r. reflexivity.
  - destruct (IH (S idx)
                (x + digitWidth * scaleOf (imageAt imgs idx) + digitGap)%Q i ch Hi)
      as (g & Hg & Hc & Hi').
    exists g. split; [exact Hg|]. split; [exact Hc|].
    rewrite Hi'. f_equal. lia.
Qed.

(** Claim C8.  Given a non-empty character order, the glyph the renderer
    places for the character at index [i] of the display string carries
    the element of the order at index [i] modulo its length. *)
Theorem C8_cyclic_glyph_assignment cache c i ch :
  characterOrder c ≠ [] →
  list_ascii_of_string (displayStr (renderSouthParkCounter cache c)) !! i
    = Some ch →
  ∃ g img, glyphs (renderSouthParkCounter cache c) !! i = Some g ∧
           g_char g = ch ∧
           g_image g = Some img ∧
           characterOrder c !! (i mod length (characterOrder c))%nat = Some img.
Proof.
  intros Hne Hi.
  destruct (place_lookup cache (imagesOf (characterOrder c))
              (canvasHeight (displayString (prefix c) (value c) (padding c))
                 (imagesOf (characterOrder c)))
              _ 0%nat (paddingX + inject_Z (offset c))%Q i ch Hi)
    as (g & Hg & Hc & Himg).
  destruct (imageAt_some (characterOrder c) i Hne) as [img Hsome].
  exists g, img. split; [exact Hg|]. split; [exact Hc|].
  rewrite imagesOf_nonempty in Himg by exact Hne. simpl in Himg.
  split; [congruence|exact Hsome].
Qed.

Lemma C8_cyclic_glyph_assignment_witness :
  ∃ g img, glyphs (renderSouthParkCounter ∅ stan_kyle) !! 4%nat = Some g ∧
           g_char g = "0"%char ∧ g_image g = Some img ∧
           [Asset Stan; Asset Kyle] !! (4 mod 2)%nat = Some img.
Proof.
  apply (C8_cyclic_glyph_assignment ∅ stan_kyle 4 "0"%char).
  - discriminate.
  - reflexivity.
Defined.

(** The order of Stan and Kyle over a display string of five characters
    assigns Stan, Kyle, Stan, Kyle, Stan. *)
Example cyclic_order_of_two :
  map g_image (glyphs (renderSouthParkCounter ∅ stan_kyle))
  = [Some (Asset Stan); Some (Asset Kyle); Some (Asset Stan);
     Some (Asset Kyle); Some (Asset Stan)].
Proof. reflexivity. Qed.

(** In binary64 the width of every glyph box is an integer, the one the
    rational model computes, and the maximum of the intrinsic height and a
    box height is the intrinsic height, as in the rational model. *)
Lemma box_dimensions_binary64 c :
  (Double.charWidth c
   = match c with Timmy => 112 | MrMackey | Kyle => 98 | _ => 84 end%float ∧
   (digitWidth * characterScales c
    == match c with Timmy => 112 | MrMackey | Kyle => 98 | _ => 84 end)%Q) ∧
  (Double.Math_max 112 (Double.charHeight c) = 112%float ∧
   (Qmax digitHeight (digitHeight * characterScales c) == digitHeight)%Q).
Proof. destruct c; repeat split; reflexivity. Qed.

Lemma scaleOf_range img : (0 < scaleOf img ∧ scaleOf img <= 1)%Q.
Proof.
  destruct img as [[[]|]|]; simpl; split; reflexivity || discriminate.
Qed.

Lemma list_ascii_app s c :
  list_ascii_of_string (s ++ String c "") = (list_ascii_of_string s ++ [c])%list.
Proof.
  induction s as [|d s IH]; simpl; [reflexivity|]. rewrite IH. reflexivity.
Qed.

(** The gap between boxes is 0, so the width does not depend on where the
    loop takes the last character to be. *)
Lemma addWidths_len imgs chars : ∀ idx len len' acc acc',
  (acc == acc')%Q →
  (addWidths chars idx len imgs acc == addWidths chars idx len' imgs acc')%Q.
Proof.
  induction chars as [|c chars IH]; intros idx len len' acc acc' Heq; simpl;
    [exact Heq|].
  apply IH. unfold digitGap.
  destruct (_ <? _), (_ <? _); rewrite Heq; ring.
Qed.

Lemma addWidths_app imgs len chars : ∀ idx acc c,
  addWidths (chars ++ [c]) idx len imgs acc
  = addWidths [c] (idx + length chars) len imgs
              (addWidths chars idx len imgs acc).
Proof.
  induction chars as [|d chars IH]; intros idx acc c.
  - simpl. rewrite Nat.add_0_r. reflexivity.
  - simpl app. cbn [addWidths]. rewrite IH. simpl length.
    replace (S idx + length chars)%nat with (idx + S (length chars))%nat by lia.
    reflexivity.
Qed.

Lemma addWidths_one imgs len idx acc c :
  (acc <= addWidths [c] idx len imgs acc)%Q.
Proof.
  simpl. unfold digitGap, digitWidth.
  pose proof (scaleOf_range (imageAt imgs idx)) as [Hpos _].
  destruct (_ <? _); lra.
Qed.

(** Claim C9.  The total width of the renderer is the canvas width of its
    display string over its character images, and for every display
    string, every character appended to it and every sequence of character
    images, the canvas width of the longer string is at least that of the
    shorter one. *)
Theorem C9_canvas_width_monotone cache c s char characterImages :
  totalWidth (renderSouthParkCounter cache c)
    = canvasWidth (displayStr (renderSouthParkCounter cache c))
                  (imagesOf (characterOrder c)) ∧
  (canvasWidth s characterImages
   <= canvasWidth (s ++ String char "") characterImages)%Q.
Proof.
  split; [reflexivity|].
  unfold canvasWidth. rewrite list_ascii_app, addWidths_app.
  eapply Qle_trans; [|apply addWidths_one].
  apply Qle_lteq. right. apply addWidths_len. reflexivity.
Qed.

Lemma maxHeights_floor imgs chars : ∀ idx m,
  (m == digitHeight)%Q → (maxHeights chars idx imgs m == digitHeight)%Q.
Proof.
  induction chars as [|c chars IH]; intros idx m Hm; simpl; [exact Hm|].
  apply IH. rewrite Q.max_l; [exact Hm|].
  rewrite Hm. unfold digitHeight.
  pose proof (scaleOf_range (imageAt imgs idx)) as [_ Hle]. lra.
Qed.

Lemma canvasHeight_floor s imgs : (canvasHeight s imgs == digitHeight)%Q.
Proof. apply maxHeights_floor. reflexivity. Qed.

Lemma fold_max_le (l : list Q) (b : Q) :
  (0 <= b)%Q → Forall (fun h => (h <= b)%Q) l → (fold_right Qmax 0 l <= b)%Q.
Proof.
  intros Hb. induction 1 as [|h l Hh _ IH]; simpl; [exact Hb|].
  apply Q.max_lub; assumption.
Qed.

Lemma fold_max_lt (l : list Q) (b : Q) :
  (0 < b)%Q → Forall (fun h => (h < b)%Q) l → (fold_right Qmax 0 l < b)%Q.
Proof.
  intros Hb. induction 1 as [|h l Hh _ IH]; simpl; [exact Hb|].
  apply Q.max_lub_lt; assumption.
Qed.

Lemma tallestBox_le s imgs : (tallestBox s imgs <= digitHeight)%Q.
Proof.
  apply fold_max_le; [discriminate|].
  unfold boxHeights. apply Forall_map, Forall_forall. intros idx _. simpl.
  pose proof (scaleOf_range (imageAt imgs idx)) as [_ Hle].
  unfold digitHeight. lra.
Qed.

(** Claim C2, as the specification states it, fails: for the one digit of
    the counter 0 held by Stan, whose render scale is 0.6, the canvas is
    112 high while the tallest (and only) glyph box is 67.2 high. *)
Lemma C2_height_is_not_tallest_box :
  ¬ (totalHeight (renderSouthParkCounter ∅ stan_only)
     == tallestBox (displayStr (renderSouthParkCounter ∅ stan_only))
                   (characterOrder stan_only))%Q.
Proof. vm_compute. discriminate. Qed.

(** Claim C2, amended.  The canvas height is the maximum of the intrinsic
    glyph height and the glyph box heights across the sequence.  No render
    scale exceeds 1, so this is the intrinsic height, 112, for every
    display string and every character order; for an order that consists
    only of glyphs with a render scale below 1 the canvas is strictly
    higher than the tallest scaled box. *)
Theorem C2_canvas_height_floor cache c :
  let d := renderSouthParkCounter cache c in
  let characterImages := imagesOf (characterOrder c) in
  (totalHeight d == Qmax digitHeight (tallestBox (displayStr d) characterImages))%Q ∧
  (totalHeight d == digitHeight)%Q ∧
  (Forall (fun img => (scaleOf (Some img) < 1)%Q) characterImages →
   (tallestBox (displayStr d) characterImages < totalHeight d)%Q).
Proof.
  intros d characterImages.
  assert (Hfloor : (totalHeight d == digitHeight)%Q) by apply canvasHeight_floor.
  split; [|split; [exact Hfloor|]].
  - rewrite Hfloor, Q.max_l; [reflexivity|apply tallestBox_le].
  - intros Hall. rewrite Hfloor. apply fold_max_lt; [reflexivity|].
    unfold boxHeights. apply Forall_map, Forall_forall. intros idx _. simpl.
    assert (Hs : (scaleOf (imageAt characterImages idx) < 1)%Q).
    { unfold imageAt. destruct (characterImages !! _) as [img|] eqn:Hl.
      - rewrite Forall_forall in Hall. apply Hall.
        apply list_elem_of_lookup. eauto.
      - apply lookup_ge_None in Hl.
        pose proof (imagesOf_never_empty (characterOrder c)) as Hne.
        fold characterImages in Hne.
        assert (Hlen : length characterImages ≠ 0%nat)
          by (destruct characterImages; [contradiction|discriminate]).
        pose proof (Nat.mod_upper_bound idx _ Hlen). lia. }
    unfold digitHeight. lra.
Qed.

Lemma C2_canvas_height_floor_witness :
  (tallestBox (displayStr (renderSouthParkCounter ∅ stan_only))
              (imagesOf (characterOrder stan_only))
   < totalHeight (renderSouthParkCounter ∅ stan_only))%Q.
Proof.
  apply (C2_canvas_height_floor ∅ stan_only).
  repeat constructor.
Defined.

(** ** The counter store, from the side of a visitor *)

Lemma safe_range z : - 2 ^ 53 <= z <= 2 ^ 53 → safe z = true.
Proof. intros Hz. unfold safe. apply andb_true_iff. split; apply Z.leb_le; lia. Qed.

(** What a read finds after an increment on an object, when the store
    takes the write. *)
Lemma stored_after_increment cfg name w :
  store_ready cfg w → plain (stored cfg w) →
  stored cfg (snd (getAndIncrementCounter cfg name w))
  = Store (to_json <$> js_set (own (stored cfg w)) name
                         (VNum (add1 (current (stored cfg w) name)))) None ∧
  store_ready cfg (snd (getAndIncrementCounter cfg name w)).
Proof.
  intros [Hw Hr] Hp. rewrite getAndIncrementCounter_spec. cbn [snd].
  rewrite assigned_plain by exact Hp.
  rewrite stored_after_write by reflexivity.
  rewrite can_write_logged, Hw.
  replace (negb (useRedisClient cfg) || redis_get_ok (logged (read_event cfg) w))
    with true
    by (destruct (useRedisClient cfg); [symmetry; apply Hr|]; reflexivity).
  split; [reflexivity|].
  unfold after_write. rewrite too_long_plain by reflexivity.
  rewrite can_write_logged, Hw.
  unfold store_ready, can_write, persist, logged in *.
  destruct (useRedisClient cfg); simpl in *; auto.
Qed.

Lemma current_written m name v :
  name ≠ "__proto__" →
  current (Store (to_json <$> js_set m name (VNum v)) None) name
  = if isFinite v then v else Int 0.
Proof.
  intros Hne. rewrite current_to_json, current_object. unfold js_get.
  rewrite js_set_own by exact Hne. reflexivity.
Qed.

(** A count that was incremented is the count the next reader sees.  On
    a store that takes writes and whose snapshot is an object, for every
    name but [__proto__]: the value an increment returns is the binary64
    sum of the count and 1; as it is finite, a peek returns it afterwards
    and the next increment returns its sum with 1.  When the count is an
    integer from -2^53 to below 2^53 - 1, the increment returns one more
    than the count, the peek the same, and the next increment one more
    again. *)
Theorem peek_returns_last_increment cfg name w :
  name ≠ "__proto__" → store_ready cfg w → plain (stored cfg w) →
  ∃ v w', getAndIncrementCounter cfg name w = (Ok v, w') ∧
          v = add1 (current (stored cfg w) name) ∧
          (isFinite v = true →
           fst (peekCounter cfg name w') = Ok v ∧
           fst (getAndIncrementCounter cfg name w') = Ok (add1 v)) ∧
          (∀ z, current (stored cfg w) name = Int z →
                - 2 ^ 53 <= z < 2 ^ 53 - 1 →
                v = Int (z + 1) ∧
                fst (peekCounter cfg name w') = Ok (Int (z + 1)) ∧
                fst (getAndIncrementCounter cfg name w') = Ok (Int (z + 2))).
Proof.
  intros Hne Hready Hp.
  destruct (stored_after_increment cfg name w Hready Hp) as [Hst _].
  destruct (getAndIncrementCounter cfg name w) as [r w'] eqn:Hcall.
  rewrite getAndIncrementCounter_spec in Hcall. injection Hcall as <- Hw'.
  cbn [snd] in Hst.
  assert (Hfin : isFinite (add1 (current (stored cfg w) name)) = true →
                 current (stored cfg w') name
                 = add1 (current (stored cfg w) name)).
  { intros Hv. rewrite Hst, current_written, Hv by exact Hne. reflexivity. }
  do 2 eexists. split; [reflexivity|]. split; [reflexivity|]. split.
  - intros Hv. rewrite peekCounter_spec, getAndIncrementCounter_spec.
    cbn [fst]. rewrite Hfin by exact Hv. auto.
  - intros z Hcur Hz. rewrite peekCounter_spec, getAndIncrementCounter_spec.
    cbn [fst]. rewrite Hfin; rewrite Hcur, add1_safe by lia.
    + rewrite add1_safe by lia. repeat split. do 2 f_equal. lia.
    + apply isFinite_safe, safe_range. lia.
Qed.

Lemma peek_returns_last_increment_witness :
  ∃ v w', getAndIncrementCounter file_config "mason" counted_world = (Ok v, w') ∧
          v = add1 (current (stored file_config counted_world) "mason") ∧
          (isFinite v = true →
           fst (peekCounter file_config "mason" w') = Ok v ∧
           fst (getAndIncrementCounter file_config "mason" w') = Ok (add1 v)) ∧
          (∀ z, current (stored file_config counted_world) "mason" = Int z →
                - 2 ^ 53 <= z < 2 ^ 53 - 1 →
                v = Int (z + 1) ∧
                fst (peekCounter file_config "mason" w') = Ok (Int (z + 1)) ∧
                fst (getAndIncrementCounter file_config "mason" w')
                = Ok (Int (z + 2))).
Proof.
  apply (peek_returns_last_increment file_config "mason" counted_world).
  - discriminate.
  - split; [reflexivity|discriminate].
  - reflexivity.
Defined.

(** A write that fails is swallowed, and the view is lost: when the
    backend refuses the write, the increment still returns the binary64
    sum of the count and 1 (one more than the count, when that is an
    integer from -2^53 to below 2^53), but the store keeps the old count,
    so that a peek before and after the call returns the same and a
    second increment returns the same value as the first. *)
Theorem failed_write_loses_increment cfg name w :
  can_write cfg w = false →
  ∃ c v w', fst (peekCounter cfg name w) = Ok c ∧
            getAndIncrementCounter cfg name w = (Ok v, w') ∧
            v = add1 c ∧
            (∀ z, c = Int z → - 2 ^ 53 <= z < 2 ^ 53 → v = Int (z + 1)) ∧
            fst (getAndIncrementCounter cfg name w') = Ok v ∧
            fst (peekCounter cfg name w') = Ok c.
Proof.
  intros Hw. rewrite getAndIncrementCounter_spec, peekCounter_spec.
  do 3 eexists. split; [reflexivity|]. split; [reflexivity|].
  split; [reflexivity|]. split.
  - intros z -> Hz. apply add1_safe, Hz.
  - rewrite getAndIncrementCounter_spec, peekCounter_spec. cbn [fst].
    assert (Hst : ∀ s, stored cfg (after_write cfg s (logged (read_event cfg) w))
                       = stored cfg w).
    { intros s. unfold after_write. rewrite can_write_logged, Hw.
      destruct (too_long s); reflexivity. }
    rewrite Hst. auto.
Qed.

Lemma failed_write_loses_increment_witness :
  ∃ c v w', fst (peekCounter file_config "mason" readonly_world) = Ok c ∧
            getAndIncrementCounter file_config "mason" readonly_world
            = (Ok v, w') ∧
            v = add1 c ∧
            (∀ z, c = Int z → - 2 ^ 53 <= z < 2 ^ 53 → v = Int (z + 1)) ∧
            fst (getAndIncrementCounter file_config "mason" w') = Ok v ∧
            fst (peekCounter file_config "mason" w') = Ok c.
Proof.
  apply (failed_write_loses_increment file_config "mason" readonly_world).
  reflexivity.
Defined.

(** *** Entries of an array *)

Lemma index_entries_lookup items : ∀ j k v,
  items !! k = Some v →
  index_entries j items !! index_key (j + N.of_nat k) = Some v.
Proof.
  induction items as [|x rest IH]; intros j k v Hk; [discriminate|].
  destruct k as [|k]; cbn [index_entries].
  - injection Hk as ->. rewrite N.add_0_r. apply lookup_insert_eq.
  - rewrite lookup_insert_ne.
    + replace (j + N.of_nat (S k))%N with (N.succ j + N.of_nat k)%N by lia.
      apply IH, Hk.
    + intros H. apply index_key_inj in H. lia.
Qed.

Lemma index_entries_Some items : ∀ j name v,
  index_entries j items !! name = Some v →
  ∃ k, name = index_key (j + N.of_nat k) ∧ items !! k = Some v.
Proof.
  induction items as [|x rest IH]; intros j name v H; cbn [index_entries] in H.
  - rewrite lookup_empty in H. discriminate.
  - apply lookup_insert_Some in H as [[<- <-]|[Hne H]].
    + exists 0%nat. rewrite N.add_0_r. auto.
    + apply IH in H as (k & -> & Hk). exists (S k).
      split; [f_equal; lia|exact Hk].
Qed.

(** An array that was read holds the elements of a document. *)
Lemma stored_array cfg w len :
  array_length (stored cfg w) = Some len →
  ∃ items, stored cfg w = array_of items ∧
           len = N.of_nat (length items) ∧
           Z.of_nat (length items) < maxElements.
Proof.
  assert (Hs : ∀ text, array_length (snapshot text) = Some len →
                       ∃ items, snapshot text = array_of items ∧
                                len = N.of_nat (length items) ∧
                                Z.of_nat (length items) < maxElements).
  { intros [|v]; [discriminate|]. unfold snapshot.
    destruct (unreadable v) eqn:Hv; [discriminate|].
    destruct v as [m|items| |[]|[z|f]|s]; unfold as_store; simpl;
      try discriminate.
    - intros [= <-]. simpl in Hv. exists items. repeat split. lia.
    - destruct (negb _); discriminate.
    - destruct (negb _); discriminate.
    - destruct (negb _); discriminate. }
  unfold stored.
  destruct (useRedisClient cfg).
  - destruct (redis_get_ok w); [|discriminate].
    destruct (redis_counters w); try discriminate; apply Hs.
  - destruct (counters_file w); [apply Hs|discriminate].
Qed.

Lemma length_elements s len : length (elements s len) = N.to_nat len.
Proof. unfold elements. rewrite length_map, length_seq. reflexivity. Qed.

Lemma snapshot_array s len :
  array_length s = Some len → Z.of_N len < maxElements →
  snapshot (JSON_stringify s) = array_of (elements s len).
Proof.
  intros Hs Hlen. unfold JSON_stringify, snapshot, unreadable. rewrite Hs.
  rewrite length_elements.
  destruct (Z.leb_spec maxElements (Z.of_nat (N.to_nat len))); [lia|].
  reflexivity.
Qed.

Lemma elements_lookup s len i :
  (i < len)%N →
  elements s len !! N.to_nat i
  = Some (default VNull (to_json <$> own s !! index_key i)).
Proof.
  intros Hi. unfold elements. rewrite list_lookup_fmap.
  rewrite lookup_seq_lt by lia. simpl. rewrite N2Nat.id. reflexivity.
Qed.

(** An entry of the store that is not a number counts as 0: whatever else
    is stored under a name (a string, a boolean, null, a nested value, or
    a number that is not finite), a peek returns 0, an increment returns
    1, and on a store that takes writes the entry is replaced by the
    number 1. *)
Theorem unusable_entry_counts_from_zero cfg name v w :
  stored cfg w !! name = Some v → (∀ n, v = VNum n → isFinite n = false) →
  ∃ w', getAndIncrementCounter cfg name w = (Ok (Int 1), w') ∧
        fst (peekCounter cfg name w) = Ok (Int 0) ∧
        (store_ready cfg w → stored cfg w' !! name = Some (VNum (Int 1))).
Proof.
  intros Hv Hnot. unfold lookup, store_lookup in Hv.
  destruct (array_length (stored cfg w)) as [len|] eqn:Hlen.
  - destruct (stored_array cfg w len Hlen) as (items & Hst & -> & Hmax).
    rewrite Hst in Hv. cbn [own array_of] in Hv.
    apply index_entries_Some in Hv as (k & -> & Hk). rewrite N.add_0_l.
    unfold maxElements in Hmax.
    assert (Hklen : (k < length items)%nat) by (eapply lookup_lt_Some, Hk).
    assert (Hidx : is_index (index_key (N.of_nat k)) = Some (N.of_nat k))
      by (apply is_index_key; lia).
    assert (Hname : index_key (N.of_nat k) ≠ "length")
      by (intros Heq; rewrite Heq in Hidx; discriminate).
    assert (Hown : own (stored cfg w) !! index_key (N.of_nat k) = Some v).
    { rewrite Hst. cbn [own array_of].
      apply (index_entries_lookup items 0 k v Hk). }
    assert (Hcur : current (stored cfg w) (index_key (N.of_nat k)) = Int 0).
    { unfold current, store_get. rewrite Hlen.
      destruct (String.eqb_spec (index_key (N.of_nat k)) "length");
        [contradiction|].
      rewrite Hown. destruct v as [| |num| |]; try reflexivity.
      rewrite (Hnot num eq_refl). reflexivity. }
    rewrite getAndIncrementCounter_spec, peekCounter_spec, Hcur.
    eexists. split; [reflexivity|]. split; [reflexivity|].
    intros [Hw Hr].
    set (s' := assigned (stored cfg w) (index_key (N.of_nat k)) (add1 (Int 0))).
    assert (Hs' : array_length s' = Some (N.of_nat (length items)) ∧
                  own s' !! index_key (N.of_nat k) = Some (VNum (Int 1))).
    { unfold s', assigned, store_set. rewrite Hlen.
      destruct (String.eqb_spec (index_key (N.of_nat k)) "length");
        [contradiction|].
      rewrite Hidx. cbn [array_length own]. split.
      - f_equal. lia.
      - apply lookup_insert_eq. }
    destruct Hs' as [Hlen' Hown'].
    unfold after_write, too_long. rewrite Hlen'.
    destruct (Z.leb_spec maxElements (Z.of_N (N.of_nat (length items))));
      [unfold maxElements in *; lia|].
    rewrite can_write_logged, Hw, stored_persist by exact Hr.
    rewrite (snapshot_array s' _ Hlen') by (unfold maxElements; lia).
    unfold lookup, store_lookup. cbn [own array_of].
    apply (index_entries_lookup _ 0 k).
    rewrite <- (Nat2N.id k) at 1.
    rewrite elements_lookup by lia. rewrite Hown'. reflexivity.
  - assert (Hcur : current (stored cfg w) name = Int 0).
    { unfold current, store_get, js_get. rewrite Hlen, Hv.
      destruct v as [| |n| |]; try reflexivity.
      rewrite (Hnot n eq_refl). reflexivity. }
    rewrite getAndIncrementCounter_spec, peekCounter_spec, Hcur.
    eexists. split; [reflexivity|]. split; [reflexivity|].
    intros [Hw Hr]. rewrite assigned_plain by exact Hlen.
    rewrite stored_after_write by reflexivity.
    rewrite can_write_logged, Hw.
    replace (negb (useRedisClient cfg)
             || redis_get_ok (logged (read_event cfg) w))
      with true
      by (destruct (useRedisClient cfg); [symmetry; apply Hr|]; reflexivity).
    unfold lookup, store_lookup. cbn [andb own].
    rewrite lookup_fmap. unfold js_set. rewrite Hv, lookup_insert_eq.
    reflexivity.
Qed.

Lemma unusable_entry_counts_from_zero_witness :
  ∃ w', getAndIncrementCounter file_config "mason" text_count_world
        = (Ok (Int 1), w') ∧
        fst (peekCounter file_config "mason" text_count_world) = Ok (Int 0) ∧
        (store_ready file_config text_count_world →
         stored file_config w' !! "mason" = Some (VNum (Int 1))).
Proof.
  apply (unusable_entry_counts_from_zero file_config "mason" (VStr "41")
           text_count_world).
  - reflexivity.
  - discriminate.
Defined.
(** ** The request handler, step by step *)

Lemma cache_grows_refl w : cache_grows w w.
Proof. split; reflexivity. Qed.

Lemma cache_grows_trans w1 w2 w3 :
  cache_grows w1 w2 → cache_grows w2 w3 → cache_grows w1 w3.
Proof.
  intros [Hf Hc] [Hf' Hc']. split; [congruence|]. etrans; eassumption.
Qed.

Lemma imageToDataUri_grows cfg img w :
  cache_grows w (snd (imageToDataUri cfg img w)).
Proof.
  destruct img as [c|name]; [|apply cache_grows_refl].
  rewrite imageToDataUri_asset.
  destruct (imageDataUriCache w !! asset_path c) eqn:Hc; [apply cache_grows_refl|].
  cbv zeta. destruct (loaded cfg c w); split; simpl; try reflexivity.
  apply insert_subseteq. exact Hc.
Qed.

Lemma loadImages_grows cfg imagesToLoad : ∀ w,
  cache_grows w (snd (loadImages cfg imagesToLoad w)).
Proof.
  induction imagesToLoad as [|img rest IH]; intros w; [apply cache_grows_refl|].
  cbn [loadImages]. unfold bind at 1, bind at 1, cache_has.
  match goal with |- context [if ?b then _ else _] => destruct b end.
  - unfold ret at 1. apply IH.
  - unfold try_catch, bind at 1.
    pose proof (imageToDataUri_grows cfg img w) as Hg.
    destruct (imageToDataUri_store cfg img w) as (r & w1 & Hload & _).
    rewrite Hload in *. unfold ret at 1. simpl in Hg.
    eapply cache_grows_trans; [exact Hg|apply IH].
Qed.

Lemma preloadEach_grows cfg images : ∀ w,
  cache_grows w (snd (preloadEach cfg images w)).
Proof.
  induction images as [|img rest IH]; intros w; [apply cache_grows_refl|].
  cbn [preloadEach]. unfold bind at 1, try_catch, bind at 1.
  pose proof (imageToDataUri_grows cfg img w) as Hg.
  destruct (imageToDataUri_store cfg img w) as (r & w1 & Hload & _).
  rewrite Hload in *. unfold ret at 1. simpl in Hg.
  eapply cache_grows_trans; [exact Hg|apply IH].
Qed.

Lemma well_named_check name :
  well_named name → String.eqb name "" || (128 <? String.length name)%nat = false.
Proof.
  intros [Hne Hlen].
  destruct (String.eqb_spec name ""); [contradiction|].
  destruct (Nat.ltb_spec 128 (String.length name)); [lia|reflexivity].
Qed.

(** A request with a well-formed name: the count is determined, the
    requested images are loaded, and the renderer runs on the cache as
    the loads left it. *)
Lemma handle_spec cfg name q w :
  well_named name →
  handle cfg name q w =
    (Ok (Image (renderSouthParkCounter
                  (imageDataUriCache
                     (snd (loadImages cfg (requestedImages q) (counted cfg name q w))))
                  (renderConfigOf q (shown cfg name q w)))),
     snd (loadImages cfg (requestedImages q) (counted cfg name q w))).
Proof.
  intros Hname. unfold handle. rewrite (well_named_check name Hname).
  unfold shown, counted, renderConfigOf, requestedImages. fold (overridden q).
  unfold bind at 1.
  destruct (overridden q).
  - unfold ret at 1. unfold bind.
    match goal with |- context [loadImages cfg ?l w] =>
      destruct (loadImages_store cfg l w) as (w' & Hload & _); rewrite Hload
    end. reflexivity.
  - destruct (q_inc q =? 1).
    + rewrite getAndIncrementCounter_spec. unfold bind. cbn [snd].
      match goal with |- context [loadImages cfg ?l ?w0] =>
        destruct (loadImages_store cfg l w0) as (w' & Hload & _); rewrite Hload
      end. reflexivity.
    + rewrite peekCounter_spec. unfold bind.
      match goal with |- context [loadImages cfg ?l ?w0] =>
        destruct (loadImages_store cfg l w0) as (w' & Hload & _); rewrite Hload
      end. reflexivity.
Qed.

Lemma not_overridden q : q_num q <= 0 → overridden q = false.
Proof.
  intros Hnum. unfold overridden.
  destruct (Z.eqb_spec (q_num q) 0) as [->|Hne]; [reflexivity|]. simpl.
  rewrite Z.gtb_ltb. apply Z.ltb_ge. lia.
Qed.


(** A counting request (no override, [inc = 1]) on a store that takes
    writes and whose snapshot is an object, for a well-formed name other
    than [__proto__] whose count is an integer from -2^53 to below 2^53:
    the image shows the prefix and the zero padded count after the
    increment, one more than before, and that count is what the store
    holds when the request is over, after the images were loaded. *)
Theorem counting_request_shows_new_count cfg name q w z :
  well_named name → name ≠ "__proto__" → store_ready cfg w →
  plain (stored cfg w) →
  current (stored cfg w) name = Int z → - 2 ^ 53 <= z < 2 ^ 53 →
  q_num q <= 0 → q_inc q = 1 →
  ∃ d w', handle cfg name q w = (Ok (Image d), w') ∧
          displayStr d
          = displayString (q_prefix q) (Int (z + 1)) (q_padding q) ∧
          current (stored cfg w') name = Int (z + 1) ∧
          fst (peekCounter cfg name w') = Ok (Int (z + 1)).
Proof.
  intros Hname Hproto Hready Hp Hcur Hz Hnum Hinc.
  rewrite (handle_spec cfg name q w Hname).
  unfold shown, counted. rewrite (not_overridden q Hnum), Hinc. cbn [Z.eqb Pos.eqb].
  destruct (increment_step cfg name w z Hproto Hready Hp Hcur)
    as (w1 & Hcall & Hcur1 & _); [lia|].
  rewrite Z.min_l in Hcall, Hcur1 by lia.
  rewrite Hcall, Hcur, add1_safe by exact Hz. cbn [snd].
  destruct (loadImages_store cfg (requestedImages q) w1) as (w' & Hload & Hsame).
  rewrite Hload. cbn [snd].
  assert (Hstored : stored cfg w' = stored cfg w1)
    by (apply stored_unchanged, Hsame).
  do 2 eexists. split; [reflexivity|]. split; [reflexivity|].
  rewrite peekCounter_spec, Hstored, Hcur1. auto.
Qed.

Lemma counting_request_shows_new_count_witness :
  ∃ d w', handle file_config "mason" default_query counted_world
            = (Ok (Image d), w') ∧
          displayStr d = displayString "" (Int (41 + 1)) 7 ∧
          current (stored file_config w') "mason" = Int (41 + 1) ∧
          fst (peekCounter file_config "mason" w') = Ok (Int (41 + 1)).
Proof.
  apply (counting_request_shows_new_count file_config "mason" default_query
           counted_world 41).
  - split; [discriminate|simpl; lia].
  - discriminate.
  - split; [reflexivity|discriminate].
  - reflexivity.
  - reflexivity.
  - lia.
  - simpl. lia.
  - reflexivity.
Defined.

(** A request with [inc] other than 1 and no override only looks: for a
    well-formed name the image shows the current count, the store has the
    content it had, and over the whole request the store is read once and
    never written. *)
Theorem peeking_request_only_reads cfg name q w :
  well_named name → q_num q <= 0 → q_inc q ≠ 1 →
  ∃ d w', handle cfg name q w = (Ok (Image d), w') ∧
          displayStr d
          = displayString (q_prefix q) (current (stored cfg w) name) (q_padding q) ∧
          store_unchanged w w' ∧
          store_events (trace w')
          = (store_events (trace w) ++ [read_event cfg])%list.
Proof.
  intros Hname Hnum Hinc.
  rewrite (handle_spec cfg name q w Hname).
  unfold shown, counted. rewrite (not_overridden q Hnum).
  destruct (Z.eqb_spec (q_inc q) 1) as [|_]; [contradiction|].
  destruct (loadImages_store cfg (requestedImages q) (logged (read_event cfg) w))
    as (w' & Hload & Hunch & Hev).
  rewrite Hload. cbn [snd].
  do 2 eexists. split; [reflexivity|]. split; [reflexivity|].
  split; [exact Hunch|].
  rewrite Hev. unfold logged, store_events. simpl. rewrite List.filter_app.
  simpl. unfold read_event. destruct (useRedisClient cfg); reflexivity.
Qed.

Lemma peeking_request_only_reads_witness :
  ∃ d w', handle file_config "mason" peek_query counted_world
            = (Ok (Image d), w') ∧
          displayStr d
          = displayString "" (current (stored file_config counted_world) "mason") 7 ∧
          store_unchanged counted_world w' ∧
          store_events (trace w')
          = (store_events (trace counted_world) ++ [read_event file_config])%list.
Proof.
  apply (peeking_request_only_reads file_config "mason" peek_query counted_world).
  - split; [discriminate|simpl; lia].
  - simpl. lia.
  - discriminate.
Defined.

(** ** The asset cache over start-up and requests *)

(** Determining the count leaves the asset side of the world alone. *)
Lemma counted_assets cfg name q w :
  asset_files (counted cfg name q w) = asset_files w ∧
  imageDataUriCache (counted cfg name q w) = imageDataUriCache w ∧
  asset_events (trace (counted cfg name q w)) = asset_events (trace w).
Proof.
  unfold counted. destruct (overridden q); [auto|].
  assert (Hread : asset_events (trace w ++ [read_event cfg]) = asset_events (trace w)).
  { unfold asset_events. rewrite List.filter_app. unfold read_event.
    destruct (useRedisClient cfg); simpl; apply app_nil_r. }
  destruct (q_inc q =? 1); [|simpl; auto].
  rewrite getAndIncrementCounter_spec. cbn [snd].
  unfold after_write. rewrite can_write_logged.
  destruct (too_long _); [simpl; auto|].
  assert (Hwrite : ∀ text,
    asset_events ((trace w ++ [read_event cfg]) ++ [write_event cfg text])
    = asset_events (trace w)).
  { intros text. unfold asset_events at 1. rewrite List.filter_app.
    fold (asset_events (trace w ++ [read_event cfg])). rewrite Hread.
    unfold write_event. destruct (useRedisClient cfg); simpl; apply app_nil_r. }
  destruct (can_write cfg w); [|simpl; auto].
  unfold persist. destruct (useRedisClient cfg); simpl; auto.
Qed.

(** A request never evicts or replaces an entry of the cache, and never
    touches the asset files: whatever the request is, every entry the
    cache had before is there afterwards, with the same data URI. *)
Theorem request_keeps_cache_entries cfg name q w :
  cache_grows w (snd (handle cfg name q w)).
Proof.
  destruct (String.eqb name "" || (128 <? String.length name)%nat) eqn:Hcheck.
  - unfold handle. rewrite Hcheck. apply cache_grows_refl.
  - assert (Hname : well_named name).
    { apply orb_false_iff in Hcheck as [Hne Hlen]. split.
      - apply String.eqb_neq, Hne.
      - apply Nat.ltb_ge, Hlen. }
    rewrite (handle_spec cfg name q w Hname). cbn [snd].
    eapply cache_grows_trans; [|apply loadImages_grows].
    destruct (counted_assets cfg name q w) as (Hf & Hc & _).
    split; [exact Hf|]. rewrite Hc. reflexivity.
Qed.

(** When sharp is installed but throws on a file that exists, the loader
    falls back to the bytes of the file as they are: the result is their
    data URI, the cache holds it from then on, and the file was handed to
    sharp once and then read once. *)
Theorem sharp_failure_falls_back cfg c transform bytes w :
  sharp cfg = Some transform →
  asset_files w !! fullPathOf cfg c = Some bytes →
  transform bytes = None →
  imageDataUriCache w !! asset_path c = None →
  ∃ w', imageToDataUri cfg (Asset c) w = (Ok (DataUri (dataUriOf c bytes)), w') ∧
        imageDataUriCache w' !! asset_path c = Some (dataUriOf c bytes) ∧
        trace w' = (trace w ++ [SharpRead (fullPathOf cfg c);
                                AssetRead (fullPathOf cfg c)])%list.
Proof.
  intros Hsharp Hfile Hfail Hmiss.
  rewrite imageToDataUri_asset, Hmiss. cbv zeta.
  unfold loaded, load_events. rewrite Hsharp, Hfile, Hfail. simpl.
  eexists. split; [reflexivity|]. simpl. rewrite Hfail.
  split; [apply lookup_insert_eq|reflexivity].
Qed.

Lemma sharp_failure_falls_back_witness :
  ∃ w', imageToDataUri failing_sharp_config (Asset Stan) stan_world
        = (Ok (DataUri (dataUriOf Stan [Byte.x89; Byte.x50; Byte.x4e; Byte.x47])), w') ∧
        imageDataUriCache w' !! asset_path Stan
        = Some (dataUriOf Stan [Byte.x89; Byte.x50; Byte.x4e; Byte.x47]) ∧
        trace w' = (trace stan_world
                    ++ [SharpRead (fullPathOf failing_sharp_config Stan);
                        AssetRead (fullPathOf failing_sharp_config Stan)])%list.
Proof.
  apply (sharp_failure_falls_back failing_sharp_config Stan (fun _ => None)
           [Byte.x89; Byte.x50; Byte.x4e; Byte.x47] stan_world);
    reflexivity.
Defined.

Lemma imageToDataUri_loads cfg c w :
  is_Some (asset_files w !! fullPathOf cfg c) →
  is_Some (imageDataUriCache (snd (imageToDataUri cfg (Asset c) w)) !! asset_path c).
Proof.
  intros [bytes Hfile]. rewrite imageToDataUri_asset.
  destruct (imageDataUriCache w !! asset_path c) eqn:Hc; [simpl; rewrite Hc; eauto|].
  cbv zeta. unfold loaded. rewrite Hfile.
  destruct (sharp cfg) as [transform|]; [destruct (transform bytes)|];
    simpl; rewrite lookup_insert_eq; eauto.
Qed.

Lemma cache_grows_entry w w' key :
  cache_grows w w' → is_Some (imageDataUriCache w !! key) →
  is_Some (imageDataUriCache w' !! key).
Proof.
  intros [_ Hsub] [uri Hkey]. exists uri.
  eapply lookup_weaken; eassumption.
Qed.

Lemma preloadEach_loads cfg c images : ∀ w,
  In (Asset c) images → is_Some (asset_files w !! fullPathOf cfg c) →
  is_Some (imageDataUriCache (snd (preloadEach cfg images w)) !! asset_path c).
Proof.
  induction images as [|img rest IH]; intros w Hin Hfile; [destruct Hin|].
  cbn [preloadEach]. unfold bind at 1, try_catch, bind at 1.
  pose proof (imageToDataUri_grows cfg img w) as Hg.
  destruct (imageToDataUri_store cfg img w) as (r & w1 & Hload & _).
  destruct Hin as [->|Hin].
  - pose proof (imageToDataUri_loads cfg c w Hfile) as Hc.
    rewrite Hload in *. unfold ret at 1. simpl in Hc.
    eapply cache_grows_entry; [apply preloadEach_grows|exact Hc].
  - rewrite Hload in *. unfold ret at 1. simpl in Hg.
    apply IH; [exact Hin|]. destruct Hg as [-> _]. exact Hfile.
Qed.

Lemma preloadEach_store cfg images : ∀ w,
  ∃ w', preloadEach cfg images w = (Ok tt, w') ∧ same_store w w'.
Proof.
  induction images as [|img rest IH]; intros w.
  - exists w. split; [reflexivity|apply same_store_refl].
  - cbn [preloadEach]. unfold bind at 1, try_catch, bind at 1.
    destruct (imageToDataUri_store cfg img w) as (r & w1 & Hload & Hsame).
    rewrite Hload. unfold ret at 1.
    destruct (IH w1) as (w' & Hrest & Hsame'). exists w'.
    split; [exact Hrest|eapply same_store_trans; eassumption].
Qed.

(** The preload pass at start-up never fails and leaves the counter store
    alone, whatever the asset folder holds: it returns normally, no entry
    of the cache is lost, and the store is neither read nor written.
    When the asset folder holds a file for every character, it leaves the
    cache with an entry for every character image. *)
Theorem preload_warms_cache cfg w :
  ∃ w', preloadImages cfg w = (Ok tt, w') ∧ same_store w w' ∧
        cache_grows w w' ∧
        (assets_present cfg w → cache_warm w').
Proof.
  unfold preloadImages.
  destruct (preloadEach_store cfg characterImages w) as (w' & Hrun & Hsame).
  assert (Hw' : w' = snd (preloadEach cfg characterImages w))
    by (rewrite Hrun; reflexivity).
  exists w'. split; [exact Hrun|]. split; [exact Hsame|]. split.
  - rewrite Hw'. apply preloadEach_grows.
  - intros Hfiles c. rewrite Hw'.
    apply preloadEach_loads; [|apply Hfiles].
    destruct c; simpl; tauto.
Qed.

Lemma preload_warms_cache_witness :
  ∃ w', preloadImages file_config stocked_world = (Ok tt, w') ∧
        same_store stocked_world w' ∧ cache_grows stocked_world w' ∧
        cache_warm w'.
Proof.
  destruct (preload_warms_cache file_config stocked_world)
    as (w' & Hrun & Hsame & Hgrows & Hwarm).
  exists w'. repeat split; try assumption; try apply Hsame; try apply Hgrows.
  apply Hwarm. intros c. destruct c; vm_compute; eauto.
Defined.

Lemma loadImages_warm cfg imagesToLoad w :
  cache_warm w → loadImages cfg imagesToLoad w = (Ok tt, w).
Proof.
  intros Hwarm. induction imagesToLoad as [|img rest IH]; [reflexivity|].
  cbn [loadImages]. unfold bind at 1, bind at 1, cache_has.
  destruct img as [c|name].
  - rewrite bool_decide_eq_true_2 by apply Hwarm. unfold ret at 1. exact IH.
  - simpl. exact IH.
Qed.

(** Once the cache holds every character image, a request does no file
    I/O for images at all: whatever the request and its order are, it
    neither reads an asset file nor runs sharp, and the cache is exactly
    what it was. *)
Theorem warm_cache_request_reads_nothing cfg name q w :
  cache_warm w →
  asset_events (trace (snd (handle cfg name q w))) = asset_events (trace w) ∧
  imageDataUriCache (snd (handle cfg name q w)) = imageDataUriCache w.
Proof.
  intros Hwarm.
  destruct (String.eqb name "" || (128 <? String.length name)%nat) eqn:Hcheck.
  - unfold handle. rewrite Hcheck. auto.
  - assert (Hname : well_named name).
    { apply orb_false_iff in Hcheck as [Hne Hlen]. split.
      - apply String.eqb_neq, Hne.
      - apply Nat.ltb_ge, Hlen. }
    rewrite (handle_spec cfg name q w Hname). cbn [snd].
    destruct (counted_assets cfg name q w) as (_ & Hc & Hev).
    rewrite loadImages_warm; [auto|].
    intros c. rewrite Hc. apply Hwarm.
Qed.

Lemma warm_cache_request_reads_nothing_witness :
  asset_events (trace (snd (handle file_config "mason" default_query warm_world)))
  = asset_events (trace warm_world) ∧
  imageDataUriCache (snd (handle file_config "mason" default_query warm_world))
  = imageDataUriCache warm_world.
Proof.
  apply (warm_cache_request_reads_nothing file_config "mason" default_query
           warm_world).
  intros c. destruct c; vm_compute; eauto.
Defined.

Lemma loadImages_loads cfg c imagesToLoad : ∀ w,
  In (Asset c) imagesToLoad → is_Some (asset_files w !! fullPathOf cfg c) →
  is_Some (imageDataUriCache (snd (loadImages cfg imagesToLoad w)) !! asset_path c).
Proof.
  induction imagesToLoad as [|img rest IH]; intros w Hin Hfile; [destruct Hin|].
  pose proof (loadImages_grows cfg rest) as Hrest.
  cbn [loadImages]. unfold bind at 1, bind at 1, cache_has.
  destruct Hin as [->|Hin].
  - destruct (bool_decide_reflect (is_Some (imageDataUriCache w !! asset_path c)))
      as [Hc|_].
    + unfold ret at 1. eapply cache_grows_entry; [apply Hrest|exact Hc].
    + unfold try_catch, bind at 1.
      pose proof (imageToDataUri_loads cfg c w Hfile) as Hc.
      destruct (imageToDataUri_store cfg (Asset c) w) as (r & w1 & Hload & _).
      rewrite Hload in *. unfold ret at 1. simpl in Hc.
      eapply cache_grows_entry; [apply Hrest|exact Hc].
  - match goal with |- context [if ?b then _ else _] => destruct b end.
    + unfold ret at 1. apply IH; assumption.
    + unfold try_catch, bind at 1.
      pose proof (imageToDataUri_grows cfg img w) as Hg.
      destruct (imageToDataUri_store cfg img w) as (r & w1 & Hload & _).
      rewrite Hload in *. unfold ret at 1. simpl in Hg.
      apply IH; [exact Hin|]. destruct Hg as [-> _]. exact Hfile.
Qed.

Lemma place_hrefs cache imgs y chars : ∀ idx x,
  Forall (fun g => ∃ i, g_image g = imageAt imgs i ∧
                        g_href g = getImageHref cache <$> g_image g)
         (place cache chars idx imgs y x).
Proof.
  induction chars as [|c chars IH]; intros idx x; simpl; constructor; eauto.
Qed.

Lemma requestedImages_nonempty q : imagesOf (requestedImages q) = requestedImages q.
Proof.
  apply imagesOf_nonempty. unfold requestedImages.
  destruct (parseOrder (q_order q)) as [[|img imgs]|]; discriminate.
Qed.

(** When the asset folder holds a file for every character, the image a
    request returns is self-contained: every glyph that shows a character
    image carries it as a data URI, for every order and whatever the cache
    held before the request. *)
Theorem present_assets_are_embedded cfg name q w :
  well_named name → assets_present cfg w →
  ∃ d w', handle cfg name q w = (Ok (Image d), w') ∧
          Forall (fun g => ∀ c, g_image g = Some (Asset c) →
                                ∃ dataUri, g_href g = Some (DataUri dataUri))
                 (glyphs d).
Proof.
  intros Hname Hfiles. rewrite (handle_spec cfg name q w Hname).
  do 2 eexists. split; [reflexivity|].
  unfold renderSouthParkCounter. cbn [glyphs characterOrder renderConfigOf].
  rewrite requestedImages_nonempty.
  eapply Forall_impl; [apply place_hrefs|].
  intros g (i & Himg & Hhref) c Hc. rewrite Hhref, Hc. simpl.
  assert (Hin : In (Asset c) (requestedImages q)).
  { rewrite Hc in Himg. symmetry in Himg. unfold imageAt in Himg.
    apply list_elem_of_In. eapply list_elem_of_lookup_2. exact Himg. }
  destruct (loadImages_loads cfg c (requestedImages q) (counted cfg name q w) Hin)
    as [dataUri Hcached].
  { destruct (counted_assets cfg name q w) as (-> & _). apply Hfiles. }
  rewrite Hcached. eauto.
Qed.

Lemma present_assets_are_embedded_witness :
  ∃ d w', handle file_config "mason" default_query stocked_world
            = (Ok (Image d), w') ∧
          Forall (fun g => ∀ c, g_image g = Some (Asset c) →
                                ∃ dataUri, g_href g = Some (DataUri dataUri))
                 (glyphs d).
Proof.
  apply (present_assets_are_embedded file_config "mason" default_query
           stocked_world).
  - split; [discriminate|simpl; lia].
  - intros c. destruct c; vm_compute; eauto.
Defined.
(** ** The character order: duplicates, and the order of the builder *)

Lemma has_In seen path : has seen path = true ↔ In path seen.
Proof.
  unfold has. rewrite existsb_exists. split.
  - intros (p & Hin & Hp). apply bool_decide_eq_true in Hp. subst. exact Hin.
  - intros Hin. exists path. split; [exact Hin|]. apply bool_decide_eq_true. reflexivity.
Qed.

Lemma resolve_sound keys : ∀ resolved,
  NoDup resolved →
  NoDup (resolve keys resolved resolved) ∧
  ∀ img, In img (resolve keys resolved resolved) →
         In img resolved ∨
         ∃ rawKey, In rawKey keys ∧ path_of_key (dash_spaces false rawKey) = Some img.
Proof.
  induction keys as [|rawKey keys IH]; intros resolved Hnd; cbn [resolve].
  - split; [exact Hnd|]. auto.
  - assert (Hrest : ∀ img,
      In img resolved ∨ (∃ k, In k keys ∧ path_of_key (dash_spaces false k) = Some img) →
      In img resolved ∨
      (∃ k, In k (rawKey :: keys) ∧ path_of_key (dash_spaces false k) = Some img)).
    { intros img [Hin|(k & Hk & Hp)]; [auto|]. right. exists k. simpl. auto. }
    destruct (path_of_key (dash_spaces false rawKey)) as [path|] eqn:Hpath.
    + destruct (has resolved path) eqn:Hhas; cbn [negb].
      * destruct (IH resolved Hnd) as [Hnd' Hfrom]. split; [exact Hnd'|].
        intros img Himg. apply Hrest, Hfrom, Himg.
      * assert (Hnew : NoDup (resolved ++ [path])).
        { apply NoDup_app. split; [exact Hnd|]. split; [|apply NoDup_singleton].
          intros x Hx Hx'. apply list_elem_of_singleton in Hx'. subst x.
          apply list_elem_of_In, has_In in Hx. congruence. }
        destruct (IH (resolved ++ [path])%list Hnew) as [Hnd' Hfrom].
        split; [exact Hnd'|].
        intros img Himg. destruct (Hfrom img Himg) as [Hin|Hex]; [|apply Hrest; auto].
        apply in_app_or in Hin as [Hin|[<-|[]]]; [auto|].
        right. exists rawKey. simpl. auto.
    + destruct (IH resolved Hnd) as [Hnd' Hfrom]. split; [exact Hnd'|].
      intros img Himg. apply Hrest, Hfrom, Himg.
Qed.

(** An order that [parseOrder] returns is never empty and never names a
    character twice, however often the order string repeats a key, and
    each of its elements is what the table holds for one of the keys of
    the string. *)
Theorem parseOrder_no_duplicates orderStr order :
  parseOrder orderStr = Some order →
  order ≠ [] ∧ NoDup order ∧
  ∀ img, In img order →
         ∃ key, In key (normalized_keys orderStr) ∧ path_of_key key = Some img.
Proof.
  unfold parseOrder, normalized_keys.
  destruct (String.eqb orderStr ""); [discriminate|].
  set (keys := List.filter _ _).
  destruct (resolve_sound keys [] NoDup_nil_2) as [Hnd Hfrom].
  destruct (resolve keys [] []) as [|img imgs] eqn:Hres; [discriminate|].
  intros [= <-]. split; [discriminate|]. split; [exact Hnd|].
  intros img' Hin. destruct (Hfrom img' Hin) as [[]|(rawKey & Hk & Hp)].
  exists (dash_spaces false rawKey). split; [apply in_map, Hk|exact Hp].
Qed.

Lemma parseOrder_no_duplicates_witness :
  [Asset Kyle; Asset Stan] ≠ [] ∧ NoDup [Asset Kyle; Asset Stan] ∧
  ∀ img, In img [Asset Kyle; Asset Stan] →
         ∃ key, In key (normalized_keys "kyle, Stan ,KYLE,,stan")
                ∧ path_of_key key = Some img.
Proof.
  apply (parseOrder_no_duplicates "kyle, Stan ,KYLE,,stan").
  reflexivity.
Defined.

Lemma split_dataKey c rest :
  split "," (dataKey c ++ "," ++ rest) = dataKey c :: split "," rest.
Proof. destruct c; reflexivity. Qed.

Lemma split_orderValue items :
  items ≠ [] → split "," (orderValue items) = map dataKey items.
Proof.
  induction items as [|c [|c' items] IH]; intros Hne; [contradiction| |].
  - destruct c; reflexivity.
  - unfold orderValue in *. cbn [map join] in *.
    rewrite split_dataKey, IH by discriminate. reflexivity.
Qed.

Lemma keys_of_orderValue items :
  items ≠ [] →
  List.filter (fun k => negb (String.eqb k ""))
    (map (fun k => toLowerCase (trim k)) (split "," (orderValue items)))
  = map dataKey items.
Proof.
  intros Hne. rewrite (split_orderValue items Hne). clear Hne.
  induction items as [|c items IH]; [reflexivity|].
  cbn [map]. replace (toLowerCase (trim (dataKey c))) with (dataKey c)
    by (destruct c; reflexivity).
  cbn [List.filter]. replace (negb (String.eqb (dataKey c) "")) with true
    by (destruct c; reflexivity).
  rewrite IH. reflexivity.
Qed.

Lemma resolve_dataKeys items : ∀ placed,
  NoDup (placed ++ items) →
  resolve (map dataKey items) (map Asset placed) (map Asset placed)
  = map Asset (placed ++ items).
Proof.
  induction items as [|c items IH]; intros placed Hnd.
  - rewrite app_nil_r. reflexivity.
  - cbn [map resolve].
    replace (path_of_key (dash_spaces false (dataKey c))) with (Some (Asset c))
      by (destruct c; reflexivity).
    assert (Hnew : has (map Asset placed) (Asset c) = false).
    { apply not_true_iff_false. rewrite has_In, in_map_iff.
      intros (c' & [= ->] & Hin).
      apply NoDup_app in Hnd as (_ & Hdisj & _).
      apply (Hdisj c); [apply list_elem_of_In, Hin|left]. }
    rewrite Hnew. cbn [negb].
    replace (map Asset placed ++ [Asset c])%list with (map Asset (placed ++ [c]))
      by apply map_app.
    rewrite IH; rewrite <- app_assoc; [reflexivity|exact Hnd].
Qed.

(** The order the builder page writes is the order the server renders:
    for the character items of the page in any order without repetition,
    the string the drag-and-drop handler stores in the order field parses
    to exactly the images of these characters, in that order, and a
    request with it loads and renders these. *)
Theorem builder_order_round_trip items q :
  items ≠ [] → NoDup items → q_order q = orderValue items →
  parseOrder (orderValue items) = Some (map Asset items) ∧
  requestedImages q = map Asset items.
Proof.
  intros Hne Hnd Hq.
  assert (Hparse : parseOrder (orderValue items) = Some (map Asset items)).
  { unfold parseOrder.
    replace (String.eqb (orderValue items) "") with false
      by (destruct items as [|[] [|]]; [contradiction|reflexivity..]).
    rewrite (keys_of_orderValue items Hne).
    change (resolve (map dataKey items) [] [])
      with (resolve (map dataKey items) (map Asset []) (map Asset [])).
    rewrite (resolve_dataKeys items [] Hnd). cbn [app].
    destruct items; [contradiction|reflexivity]. }
  split; [exact Hparse|].
  unfold requestedImages. rewrite Hq, Hparse.
  destruct items; [contradiction|reflexivity].
Qed.

Lemma builder_order_round_trip_witness :
  parseOrder (orderValue [Wendy; Stan; Kyle]) = Some (map Asset [Wendy; Stan; Kyle]) ∧
  requestedImages (Query 0 "" 1 7 0 1 "top" "auto" 1 "wendy,stan,kyle")
  = map Asset [Wendy; Stan; Kyle].
Proof.
  apply (builder_order_round_trip [Wendy; Stan; Kyle]
           (Query 0 "" 1 7 0 1 "top" "auto" 1 "wendy,stan,kyle")).
  - discriminate.
  - apply (bool_decide_unpack _). exact I.
  - reflexivity.
Defined.

(** ** The layout of the glyphs *)

Lemma abutting_from x x' gs : (x == x')%Q → abutting x gs → abutting x' gs.
Proof.
  revert x x'. induction gs as [|g gs IH]; intros x x' Hx; simpl; [auto|].
  intros [Hg Hrest]. split; [rewrite Hg; exact Hx|].
  eapply IH; [|exact Hrest]. rewrite Hx. reflexivity.
Qed.

Lemma place_abutting cache imgs y chars : ∀ idx x,
  abutting x (place cache chars idx imgs y x).
Proof.
  induction chars as [|c chars IH]; intros idx x; simpl; [exact I|].
  split; [reflexivity|].
  eapply abutting_from; [|apply IH]. unfold digitGap. ring.
Qed.

Lemma place_chars cache imgs y chars : ∀ idx x,
  map g_char (place cache chars idx imgs y x) = chars.
Proof.
  induction chars as [|c chars IH]; intros idx x; simpl; [reflexivity|].
  rewrite IH. reflexivity.
Qed.

Lemma addWidths_sum cache imgs y len chars : ∀ idx x acc,
  (addWidths chars idx len imgs acc
   == acc + Qsum (map g_width (place cache chars idx imgs y x)))%Q.
Proof.
  induction chars as [|c chars IH]; intros idx x acc; simpl; [ring|].
  rewrite (IH (S idx) (x + digitWidth * scaleOf (imageAt imgs idx) + digitGap)%Q).
  unfold digitGap. destruct (_ <? _); ring.
Qed.

Lemma place_widths cache imgs y chars : ∀ idx x,
  Forall (fun g => (84 <= g_width g ∧ g_width g <= 140)%Q)
         (place cache chars idx imgs y x).
Proof.
  induction chars as [|c chars IH]; intros idx x; simpl; constructor; [|apply IH].
  simpl. unfold digitWidth.
  destruct (imageAt imgs idx) as [[[]|]|]; simpl; split; discriminate.
Qed.

Lemma Qsum_bounds (lo hi : Q) (l : list Q) :
  Forall (fun v => (lo <= v ∧ v <= hi)%Q) l →
  (inject_Z (Z.of_nat (length l)) * lo <= Qsum l ∧
   Qsum l <= inject_Z (Z.of_nat (length l)) * hi)%Q.
Proof.
  induction 1 as [|v l [Hlo Hhi] _ [IHlo IHhi]].
  - simpl. split; ring_simplify; apply Qle_refl.
  - cbn [length Qsum fold_right]. fold (Qsum l).
    rewrite Nat2Z.inj_succ. unfold Z.succ. rewrite inject_Z_plus.
    change (inject_Z 1) with 1%Q.
    revert IHlo IHhi. generalize (inject_Z (Z.of_nat (length l))), (Qsum l).
    intros m total IHlo IHhi. split; nra.
Qed.

(** The glyph boxes tile the canvas from left to right.  There is one
    glyph per character of the display string, in its order; the first
    box begins at the offset and every box begins where the one before it
    ends; the widths of the boxes add up to the width of the canvas, so
    the last box ends at the offset plus the total width; and as every box
    is between 84 and 140 wide, so is the canvas per character. *)
Theorem glyphs_tile_the_canvas cache c :
  let d := renderSouthParkCounter cache c in
  let n := inject_Z (Z.of_nat (String.length (displayStr d))) in
  map g_char (glyphs d) = list_ascii_of_string (displayStr d) ∧
  abutting (inject_Z (offset c)) (glyphs d) ∧
  (totalWidth d == Qsum (map g_width (glyphs d)))%Q ∧
  (n * 84 <= totalWidth d ∧ totalWidth d <= n * 140)%Q.
Proof.
  intros d n. subst d n.
  unfold renderSouthParkCounter.
  cbn [glyphs displayStr totalWidth].
  set (s := displayString (prefix c) (value c) (padding c)).
  set (imgs := imagesOf (characterOrder c)).
  set (gs := place cache (list_ascii_of_string s) 0 imgs (canvasHeight s imgs)
                   (paddingX + inject_Z (offset c))%Q).
  assert (Hsum : (canvasWidth s imgs == Qsum (map g_width gs))%Q).
  { unfold canvasWidth.
    rewrite (addWidths_sum cache imgs (canvasHeight s imgs) (String.length s)
               (list_ascii_of_string s) 0%nat (paddingX + inject_Z (offset c))%Q).
    fold gs. unfold paddingX. ring. }
  split; [apply place_chars|]. split.
  { eapply abutting_from; [|apply place_abutting]. unfold paddingX. ring. }
  split; [exact Hsum|].
  rewrite Hsum.
  replace (String.length s) with (length (map g_width gs)).
  - apply Qsum_bounds. apply Forall_map. apply place_widths.
  - rewrite length_map. rewrite <- (length_map g_char gs).
    unfold gs. rewrite place_chars.
    clear. induction s as [|a s IH]; simpl; [reflexivity|]. rewrite IH. reflexivity.
Qed.

(** Every glyph stands on the bottom line of the canvas and lies inside
    it: the lower edge of its box is at the total height, its upper edge
    is not above the canvas, and the anchor of its text lies strictly
    inside the box. *)
Theorem glyphs_stand_on_the_bottom cache c :
  let d := renderSouthParkCounter cache c in
  Forall (fun g => (g_y g + g_height g == totalHeight d)%Q ∧
                   (0 <= g_y g)%Q ∧ (0 < g_height g)%Q ∧
                   (0 < g_textX g ∧ g_textX g < g_width g)%Q ∧
                   (0 < g_textY g ∧ g_textY g < g_height g)%Q)
         (glyphs d).
Proof.
  intros d. subst d. unfold renderSouthParkCounter. cbn [glyphs totalHeight].
  set (s := displayString (prefix c) (value c) (padding c)).
  set (imgs := imagesOf (characterOrder c)).
  pose proof (canvasHeight_floor s imgs) as Hfloor.
  generalize dependent (canvasHeight s imgs). intros H Hfloor.
  generalize (paddingX + inject_Z (offset c))%Q 0%nat.
  induction (list_ascii_of_string s) as [|a chars IH]; intros x idx; simpl;
    constructor; [|apply IH].
  simpl. rewrite Hfloor. unfold digitHeight, digitWidth.
  destruct (imageAt imgs idx) as [[[]|]|]; simpl; repeat split;
    try ring; try discriminate; reflexivity.
Qed.

(** In exact arithmetic, for a scale of at most 1 the scaled image stays
    inside the view box of the canvas, placed as the alignment says: its
    upper edge (the baseline offset) is not above the canvas and its
    lower edge not below it; with [top] the upper edges coincide, with
    [center] the margins above and below are equal, and with any other
    alignment the lower edges coincide.  The binary64 arithmetic of the
    code follows this only up to rounding: with the scale 0.2 and the
    alignment [bottom] the lower edge [baselineOffset + scaledHeight] is
    larger than the height 112 of the canvas, and with the scale 0.3 and
    [center] the margin above is not the margin below; with the scale
    0.5 and [center] both are 28, as in exact arithmetic. *)
Theorem scaled_image_stays_in_view cache c :
  (0 <= scale c)%Q → (scale c <= 1)%Q →
  let d := renderSouthParkCounter cache c in
  let lower := (baselineOffset d + scaledHeight d)%Q in
  ((0 <= baselineOffset d ∧ lower <= totalHeight d)%Q ∧
   (align c = "top" → baselineOffset d == 0)%Q ∧
   (align c = "center" → baselineOffset d == totalHeight d - lower)%Q ∧
   (align c ≠ "top" → align c ≠ "center" → lower == totalHeight d)%Q) ∧
  (112 <? Double.baselineOffset "bottom" 0.2 + Double.scaledHeight 0.2)%float
  = true ∧
  (Double.baselineOffset "center" 0.3
   =? 112 - (Double.baselineOffset "center" 0.3 + Double.scaledHeight 0.3))%float
  = false ∧
  Double.baselineOffset "center" 0.5 = 28%float ∧
  (112 - (Double.baselineOffset "center" 0.5 + Double.scaledHeight 0.5))%float
  = 28%float.
Proof.
  intros Hlo Hhi d lower. split; [|repeat split; reflexivity].
  subst d lower. unfold renderSouthParkCounter.
  cbn [baselineOffset scaledHeight totalHeight].
  set (s := displayString (prefix c) (value c) (padding c)).
  set (imgs := imagesOf (characterOrder c)).
  pose proof (canvasHeight_floor s imgs) as Hfloor. unfold digitHeight in Hfloor.
  revert Hfloor. generalize (canvasHeight s imgs). intros H Hfloor.
  destruct (String.eqb_spec (align c) "top") as [Htop|Htop];
    [|destruct (String.eqb_spec (align c) "center") as [Hcen|Hcen]].
  - split; [split; [apply Qle_refl|nra]|].
    split; [reflexivity|]. split; [intros Hc; rewrite Htop in Hc; discriminate|].
    intros Hne. contradiction.
  - split; [split; [|]|].
    + apply Qle_shift_div_l; [reflexivity|]. nra.
    + assert (Hhalf : (H * (1 - scale c) / 2 <= H * (1 - scale c))%Q).
      { apply Qle_shift_div_r; [reflexivity|]. nra. }
      nra.
    + split; [congruence|]. split; [intros _; field|]. intros _ Hne. contradiction.
  - split; [split; nra|]. split; [contradiction|]. split; [contradiction|].
    intros _ _. ring.
Qed.

Lemma scaled_image_stays_in_view_witness :
  (0 <= baselineOffset (renderSouthParkCounter ∅ half_size_centered) ∧
   baselineOffset (renderSouthParkCounter ∅ half_size_centered)
   + scaledHeight (renderSouthParkCounter ∅ half_size_centered)
   <= totalHeight (renderSouthParkCounter ∅ half_size_centered))%Q.
Proof.
  apply (scaled_image_stays_in_view ∅ half_size_centered); discriminate.
Defined.

(** ** The preview of the builder page *)

Lemma clampPadding_range parsed : 1 <= clampPadding parsed <= 16.
Proof.
  unfold clampPadding. destruct parsed as [padding|]; [|lia].
  destruct (Z.ltb_spec padding 1); [simpl; lia|].
  rewrite Z.gtb_ltb. destruct (Z.ltb_spec 16 padding); simpl; lia.
Qed.

Lemma previewNum_digits :
  Forall (fun k =>
            ∃ num, Number_of (previewNum (Z.of_nat k)) = Some num ∧ 0 < num ∧
                   displayString "" (Int num) k = previewNum (Z.of_nat k) ∧
                   String.length (previewNum (Z.of_nat k)) = k)
         (seq 1 16).
Proof.
  repeat constructor; eexists; (split; [vm_compute; reflexivity|]);
    (split; [reflexivity|]); split; vm_compute; reflexivity.
Qed.

(** The preview the builder page requests shows the sample digits and
    counts nothing.  Whatever the padding field holds, the padding sent is
    between 1 and 16 (7 when the field is not a number in that range);
    the preview number is a positive number of exactly that many digits,
    so that the handler takes it as an override; the image shows the
    prefix followed by exactly these digits, and the request neither reads
    nor writes the store. *)
Theorem preview_shows_sample_digits cfg name parsed darkmode prefix order w :
  well_named name →
  ∃ q d w',
    previewQuery parsed darkmode prefix order = Some q ∧
    1 <= clampPadding parsed <= 16 ∧
    String.length (previewNum (clampPadding parsed))
    = Z.to_nat (clampPadding parsed) ∧
    handle cfg name q w = (Ok (Image d), w') ∧
    displayStr d = prefix ++ previewNum (clampPadding parsed) ∧
    same_store w w'.
Proof.
  intros Hname. pose proof (clampPadding_range parsed) as Hrange.
  unfold previewQuery.
  set (padding := clampPadding parsed) in *.
  assert (Hin : Z.to_nat padding ∈ seq 1 16)
    by (apply list_elem_of_In, in_seq; lia).
  pose proof (proj1 (Forall_forall _ _) previewNum_digits _ Hin)
    as (num & Hnum & Hpos & Hshow & Hlen).
  rewrite Z2Nat.id in Hnum, Hshow, Hlen by lia.
  rewrite Hnum.
  match goal with |- ∃ q _ _, Some ?q0 = Some q ∧ _ => set (q := q0) end.
  destruct (loadImages_store cfg (requestedImages q) w) as (w' & Hload & Hsame).
  assert (Hshown : shown cfg name q w = Int num ∧ counted cfg name q w = w).
  { unfold shown, counted, overridden. cbn [q_num q].
    replace (negb (num =? 0) && (num >? 0)) with true
      by (symmetry; apply andb_true_iff; split; [apply negb_true_iff|]; lia).
    auto. }
  destruct Hshown as [Hvalue Hworld].
  exists q. do 2 eexists. split; [reflexivity|].
  split; [exact Hrange|]. split; [exact Hlen|].
  rewrite (handle_spec cfg name q w Hname), Hvalue, Hworld, Hload. cbn [snd].
  split; [reflexivity|]. split; [|exact Hsame].
  unfold renderSouthParkCounter, renderConfigOf.
  cbn [displayStr Render.prefix value Render.padding q_prefix q_padding q].
  unfold displayString.
  change (padStart (String_of (Int num)) (Z.to_nat padding) "0" = previewNum padding)
    in Hshow.
  rewrite Hshow. reflexivity.
Qed.

Lemma preview_shows_sample_digits_witness :
  ∃ q d w',
    previewQuery (Some 5) "auto" "SP-" "" = Some q ∧
    1 <= clampPadding (Some 5) <= 16 ∧
    String.length (previewNum (clampPadding (Some 5)))
    = Z.to_nat (clampPadding (Some 5)) ∧
    handle file_config "mason" q counted_world = (Ok (Image d), w') ∧
    displayStr d = "SP-" ++ previewNum (clampPadding (Some 5)) ∧
    same_store counted_world w'.
Proof.
  apply (preview_shows_sample_digits file_config "mason" (Some 5) "auto" "SP-" ""
           counted_world).
  split; [discriminate|simpl; lia].
Defined.

(** ** Writing and reading the store *)

(** What is written is what is read back: on a store that takes writes,
    a read after [writeStore] of an object returns the object that was
    written, with every number that is not finite replaced by null as
    JSON has it, and so the very same object when it holds no such
    number. *)
Theorem write_then_read cfg s w :
  store_ready cfg w → plain s →
  ∃ w1 w2, writeStore cfg s w = (Ok tt, w1) ∧
           readStore cfg w1 = (Ok (Store (to_json <$> own s) None), w2) ∧
           ((∀ name n, s !! name = Some (VNum n) → isFinite n = true) →
            Store (to_json <$> own s) None = s).
Proof.
  intros [Hw Hr] Hp. rewrite writeStore_spec.
  do 2 eexists. split; [reflexivity|].
  rewrite readStore_spec, stored_after_write, Hw by exact Hp.
  replace (negb (useRedisClient cfg) || redis_get_ok w) with true
    by (destruct (useRedisClient cfg); [symmetry; apply Hr|]; reflexivity).
  split; [reflexivity|].
  intros Hfinite. rewrite (plain_own s Hp) at 2. f_equal.
  apply map_eq. intros name. rewrite lookup_fmap.
  specialize (Hfinite name). unfold lookup at 1, store_lookup in Hfinite.
  destruct (own s !! name) as [[| |n| |]|]; try reflexivity.
  simpl. rewrite (Hfinite n eq_refl). reflexivity.
Qed.

Lemma write_then_read_witness :
  ∃ w1 w2, writeStore file_config (Store {[ "mason" := VNum (Int 41) ]} None)
                      fresh_world
           = (Ok tt, w1) ∧
           readStore file_config w1
           = (Ok (Store (to_json <$> own (Store {[ "mason" := VNum (Int 41) ]} None))
                        None), w2) ∧
           ((∀ name n, Store {[ "mason" := VNum (Int 41) ]} None !! name
                       = Some (VNum n) → isFinite n = true) →
            Store (to_json <$> own (Store {[ "mason" := VNum (Int 41) ]} None)) None
            = Store {[ "mason" := VNum (Int 41) ]} None).
Proof.
  apply (write_then_read file_config (Store {[ "mason" := VNum (Int 41) ]} None)
           fresh_world).
  - split; [reflexivity|discriminate].
  - reflexivity.
Defined.

(** Increments are not atomic.  When two calls on the Redis backend both
    read the store, an object, before either writes it, each returns the
    binary64 sum of its own count and 1, but only the later write
    survives, and it writes back the whole object as the later call read
    it: the count of the later name is the value that call returned and,
    for two names, the increment of the first is undone.  For one name
    whose count is an integer from -2^53 to below 2^53, both calls return
    one more than the count and the store holds one more, not two: two
    views are counted as one. *)
Theorem racing_increments_lose_a_view cfg first second w :
  useRedisClient cfg = true → store_ready cfg w → plain (stored cfg w) →
  second ≠ "__proto__" →
  ∃ w', racing cfg first second w
        = (Ok (add1 (current (stored cfg w) first),
               add1 (current (stored cfg w) second)), w') ∧
        (isFinite (add1 (current (stored cfg w) second)) = true →
         current (stored cfg w') second = add1 (current (stored cfg w) second)) ∧
        (first ≠ second →
         current (stored cfg w') first = current (stored cfg w) first) ∧
        (∀ z, first = second → current (stored cfg w) first = Int z →
              - 2 ^ 53 <= z < 2 ^ 53 →
              add1 (current (stored cfg w) first) = Int (z + 1) ∧
              current (stored cfg w') first = Int (z + 1)).
Proof.
  intros Hredis [Hw Hr] Hp Hsecond. unfold racing, bind.
  rewrite readStore_spec, readStore_spec, stored_logged.
  unfold lift. unfold store_set at 1. rewrite Hp.
  rewrite writeStore_spec.
  unfold store_set at 1. rewrite Hp.
  rewrite writeStore_spec. unfold ret.
  set (sA := Store (js_set (own (stored cfg w)) first _) None).
  set (sB := Store (js_set (own (stored cfg w)) second _) None).
  set (w0 := logged (read_event cfg) (logged (read_event cfg) w)).
  assert (Hw0 : can_write cfg w0 = true)
    by (unfold w0; rewrite !can_write_logged; exact Hw).
  assert (Hwrite : ∀ s w1, plain s → can_write cfg w1 = true →
            redis_get_ok w1 = true →
            stored cfg (after_write cfg s w1) = Store (to_json <$> own s) None ∧
            can_write cfg (after_write cfg s w1) = true ∧
            redis_get_ok (after_write cfg s w1) = true).
  { intros s w1 Hs Hc Hg. split.
    - rewrite stored_after_write, Hc, Hg, Hredis by exact Hs. reflexivity.
    - unfold after_write. rewrite (too_long_plain s Hs), Hc.
      unfold can_write, persist, logged in *. rewrite Hredis in *.
      simpl. split; assumption. }
  destruct (Hwrite sA w0 eq_refl Hw0 (Hr Hredis)) as (_ & HwA & HgA).
  destruct (Hwrite sB (after_write cfg sA w0) eq_refl HwA HgA) as (Hst & _).
  assert (Hcur : current (stored cfg (after_write cfg sB (after_write cfg sA w0)))
                         second
                 = if isFinite (add1 (current (stored cfg w) second))
                   then add1 (current (stored cfg w) second) else Int 0).
  { rewrite Hst. unfold sB. cbn [own]. apply current_written, Hsecond. }
  eexists. split; [reflexivity|]. split; [|split].
  - intros Hfin. rewrite Hcur, Hfin. reflexivity.
  - intros Hne. rewrite Hst. unfold sB. cbn [own].
    rewrite current_to_json, current_other by exact Hne.
    rewrite <- (plain_own _ Hp). reflexivity.
  - intros z <- Hz Hrange. rewrite Hcur, Hz, add1_safe by exact Hrange.
    rewrite isFinite_safe by (apply safe_range; lia). auto.
Qed.

Lemma racing_increments_lose_a_view_witness :
  ∃ w', racing redis_config "mason" "kyle" redis_world
        = (Ok (add1 (current (stored redis_config redis_world) "mason"),
               add1 (current (stored redis_config redis_world) "kyle")), w') ∧
        (isFinite (add1 (current (stored redis_config redis_world) "kyle")) = true →
         current (stored redis_config w') "kyle"
         = add1 (current (stored redis_config redis_world) "kyle")) ∧
        ("mason" ≠ "kyle" →
         current (stored redis_config w') "mason"
         = current (stored redis_config redis_world) "mason").
Proof.
  destruct (racing_increments_lose_a_view redis_config "mason" "kyle" redis_world)
    as (w' & Hrun & Hlater & Hfirst & _).
  - reflexivity.
  - split; reflexivity.
  - reflexivity.
  - discriminate.
  - exists w'. auto.
Defined.

(** ** The first variant of the server *)



Lemma length_list_ascii s : length (list_ascii_of_string s) = String.length s.
Proof. induction s as [|a s IH]; simpl; [reflexivity|]. rewrite IH. reflexivity. Qed.

Lemma sqlite_digits_lookup offset chars : ∀ idx i d,
  Sqlite.digits chars idx offset !! i = Some d →
  chars !! i = Some (Sqlite.d_char d) ∧
  (Sqlite.d_x d == 12 + inject_Z (Z.of_nat (idx + i)) * 36 + inject_Z offset)%Q ∧
  Sqlite.d_y d = Sqlite.paddingY ∧
  Sqlite.d_accent d = Sqlite.accentColor (Sqlite.d_char d).
Proof.
  induction chars as [|c chars IH]; intros idx i d Hd; [discriminate|].
  destruct i as [|i]; cbn [Sqlite.digits] in Hd.
  - injection Hd as <-. cbn. rewrite Nat.add_0_r.
    split; [reflexivity|]. split; [|auto].
    unfold Sqlite.paddingX, Sqlite.digitWidth, Sqlite.digitGap. ring.
  - apply IH in Hd. replace (idx + S i)%nat with (S idx + i)%nat by lia. exact Hd.
Qed.

Lemma isDigit_index c :
  Sqlite.isDigit c = true →
  ∃ k, (k < 10)%nat ∧ c = ascii_of_nat (48 + k) ∧
       Sqlite.accentColor c = nth k Sqlite.digitAccents "".
Proof.
  destruct c as [[] [] [] [] [] [] [] []]; intros Hdigit; try discriminate Hdigit.
  all: first
    [ exists 0%nat; split; [lia|split; reflexivity]
    | exists 1%nat; split; [lia|split; reflexivity]
    | exists 2%nat; split; [lia|split; reflexivity]
    | exists 3%nat; split; [lia|split; reflexivity]
    | exists 4%nat; split; [lia|split; reflexivity]
    | exists 5%nat; split; [lia|split; reflexivity]
    | exists 6%nat; split; [lia|split; reflexivity]
    | exists 7%nat; split; [lia|split; reflexivity]
    | exists 8%nat; split; [lia|split; reflexivity]
    | exists 9%nat; split; [lia|split; reflexivity] ].
Qed.

(** The layout of the SQLite variant, for a display string of characters
    below U+0100, where the code units that [length] counts for the
    width are the characters that the loop over [Array.from] draws.  The
    slots of the characters are 36 apart, and with the margin of 12 on
    both sides they fill the width of the canvas exactly: the first slot
    begins 12 after the offset and the last one ends 12 before the offset
    plus the total width.  Each of the ten decimal digits has an accent
    colour of its own, and no other character has the colour of a
    digit. *)
Theorem sqlite_slots_and_colours displayStr offset :
  let ds := Sqlite.digits (list_ascii_of_string displayStr) 0 offset in
  let n := String.length displayStr in
  (∀ i d, ds !! i = Some d →
          list_ascii_of_string displayStr !! i = Some (Sqlite.d_char d) ∧
          (Sqlite.d_x d == inject_Z offset + 12 + inject_Z (Z.of_nat i) * 36)%Q ∧
          (Sqlite.d_x d + Sqlite.digitWidth + 12
           <= inject_Z offset + Sqlite.totalWidth displayStr)%Q ∧
          (S i = n →
           (Sqlite.d_x d + Sqlite.digitWidth + 12
            == inject_Z offset + Sqlite.totalWidth displayStr)%Q) ∧
          Sqlite.d_accent d = Sqlite.accentColor (Sqlite.d_char d)) ∧
  (∀ a b, Sqlite.isDigit a = true →
          Sqlite.accentColor a = Sqlite.accentColor b → a = b).
Proof.
  intros ds n. split.
  - intros i d Hd.
    destruct (sqlite_digits_lookup offset _ 0%nat i d Hd) as (Hc & Hx & _ & Ha).
    cbn [Nat.add] in Hx.
    assert (Hi : (i < n)%nat).
    { apply lookup_lt_Some in Hc. rewrite length_list_ascii in Hc. exact Hc. }
    split; [exact Hc|]. split; [rewrite Hx; ring|].
    unfold Sqlite.totalWidth, Sqlite.paddingX, Sqlite.digitWidth, Sqlite.digitGap.
    fold n. rewrite Hx.
    split; [|split; [|exact Ha]].
    + assert (Hle : (inject_Z (Z.of_nat i) + 1 <= inject_Z (Z.of_nat n))%Q).
      { change 1%Q with (inject_Z 1). rewrite <- inject_Z_plus, <- Zle_Qle. lia. }
      lra.
    + intros Hlast. rewrite <- Hlast, Nat2Z.inj_succ. unfold Z.succ.
      rewrite inject_Z_plus. change (inject_Z 1) with 1%Q. ring.
  - intros a b Ha Hab.
    destruct (isDigit_index a Ha) as (k & Hk & -> & Hcol).
    destruct (Sqlite.isDigit b) eqn:Hb.
    + destruct (isDigit_index b Hb) as (j & Hj & -> & Hcol').
      rewrite Hcol, Hcol' in Hab. f_equal. f_equal.
      do 10 (destruct k as [|k]; [do 10 (destruct j as [|j];
        [reflexivity || discriminate Hab|]); lia|]). lia.
    + exfalso. rewrite Hcol in Hab. unfold Sqlite.accentColor in Hab at 1.
      rewrite Hb in Hab.
      do 10 (destruct k as [|k]; [discriminate Hab|]). lia.
Qed.

(** ** The character order and the case of its keys *)

Lemma lower_facts c :
  Ascii.eqb (lower c) "," = Ascii.eqb c "," ∧
  is_space (lower c) = is_space c ∧
  lower (lower c) = lower c.
Proof. destruct c as [[] [] [] [] [] [] [] []]; repeat split; reflexivity. Qed.

Lemma toLowerCase_idem s : toLowerCase (toLowerCase s) = toLowerCase s.
Proof.
  induction s as [|c s IH]; simpl; [reflexivity|].
  rewrite IH, (proj2 (proj2 (lower_facts c))). reflexivity.
Qed.

Lemma split_toLowerCase s :
  split "," (toLowerCase s) = map toLowerCase (split "," s).
Proof.
  induction s as [|c s IH]; [reflexivity|].
  cbn [toLowerCase split]. rewrite (proj1 (lower_facts c)), IH.
  destruct (Ascii.eqb c ","); [reflexivity|].
  destruct (split "," s); reflexivity.
Qed.

Lemma trimStart_toLowerCase s :
  trimStart (toLowerCase s) = toLowerCase (trimStart s).
Proof.
  induction s as [|c s IH]; [reflexivity|].
  cbn [toLowerCase trimStart]. rewrite (proj1 (proj2 (lower_facts c))), IH.
  destruct (is_space c); reflexivity.
Qed.

Lemma trimEnd_toLowerCase s :
  trimEnd (toLowerCase s) = toLowerCase (trimEnd s).
Proof.
  induction s as [|c s IH]; [reflexivity|].
  cbn [toLowerCase trimEnd]. rewrite IH, (proj1 (proj2 (lower_facts c))).
  destruct (trimEnd s); [destruct (is_space c)|]; reflexivity.
Qed.

Lemma trim_toLowerCase s : trim (toLowerCase s) = toLowerCase (trim s).
Proof. unfold trim. rewrite trimStart_toLowerCase, trimEnd_toLowerCase. reflexivity. Qed.

(** The order string is read without regard to case: for every order
    string, writing its letters in lower case changes nothing of what
    [parseOrder] returns, so that [order=KYLE,Stan] selects what
    [order=kyle,stan] selects. *)
Theorem order_ignores_case orderStr :
  parseOrder (toLowerCase orderStr) = parseOrder orderStr.
Proof.
  unfold parseOrder.
  replace (String.eqb (toLowerCase orderStr) "") with (String.eqb orderStr "")
    by (destruct orderStr; reflexivity).
  rewrite split_toLowerCase, map_map.
  erewrite (map_ext (fun k => toLowerCase (trim (toLowerCase k))));
    [reflexivity|].
  intros k. simpl. rewrite trim_toLowerCase. apply toLowerCase_idem.
Qed.
